(** * BitFieldArray: a shallow embedding of [bit_field_array.py]

    The Python module defines two classes.  [BitField] is a slot holding an
    optional integer and a width; [BitFieldArray] is a [UserList] of such
    slots.  Python integers are unbounded, so they are modelled by [Z]; the
    bit operators [&], [|], [<<] and [>>] are [Z.land], [Z.lor], [Z.shiftl]
    and [Z.shiftr] (two's complement on negative numbers, as in Python),
    except that Python raises [ValueError] on a negative shift count.

    Methods mutate the receiver in place and may raise, so every method is a
    computation in a state-and-exception monad: the state is the receiver's
    [data] list together with the value held by the module-level sentinel
    slot [_bits_sentinel], and a raised exception keeps the state reached so
    far. *)

From Stdlib Require Import ZArith List Lia Bool.
From Stdlib Require Import Strings.String Strings.Ascii Strings.Byte.
From Stdlib Require Import DecimalString.
From stdpp Require Import base list.
Import ListNotations.

Local Open Scope Z_scope.

(** ** Exceptions and outcomes *)

Inductive exn : Type :=
| ValueError
| IndexError
| OverflowError.

Inductive outcome (A : Type) : Type :=
| Return (a : A)
| Raise (e : exn).

Arguments Return {A} a.
Arguments Raise {A} e.

Definition obind {A B} (m : outcome A) (k : A -> outcome B) : outcome B :=
  match m with
  | Return a => k a
  | Raise e => Raise e
  end.

Notation "'let!' x ':=' m 'in' k" := (obind m (fun x => k))
  (at level 10, x name, m at level 100, k at level 200).

(** ** Python integer primitives *)

Module PyInt.

(** [a << b]: negative shift counts are rejected. *)
Definition lshift (a b : Z) : outcome Z :=
  if b <? 0 then Raise ValueError else Return (Z.shiftl a b).

(** [a >> b]: likewise. *)
Definition rshift (a b : Z) : outcome Z :=
  if b <? 0 then Raise ValueError else Return (Z.shiftr a b).

(** [int.bit_length()]: bits needed for the absolute value, 0 for 0. *)
Definition bit_length (n : Z) : Z :=
  if n =? 0 then 0 else Z.log2 (Z.abs n) + 1.

Definition byte_of_Z (z : Z) : byte :=
  match Byte.of_N (Z.to_N (z mod 256)) with
  | Some b => b
  | None => x00
  end.

Definition Z_of_byte (b : byte) : Z := Z.of_N (Byte.to_N b).

(** The [length] low-order base-256 digits, least significant first. *)
Fixpoint digits_le (length : nat) (n : Z) : list byte :=
  match length with
  | O => []
  | S k => byte_of_Z n :: digits_le k (n / 256)
  end.

(** Value of a digit string, least significant first. *)
Fixpoint of_digits_le (bs : list byte) : Z :=
  match bs with
  | [] => 0
  | b :: rest => Z_of_byte b + 256 * of_digits_le rest
  end.

(** [n.to_bytes(length, order)], unsigned. *)
Definition to_bytes (n length : Z) (order : string) : outcome (list byte) :=
  if negb (String.eqb order "little" || String.eqb order "big")
  then Raise ValueError
  else if length <? 0 then Raise ValueError
  else if n <? 0 then Raise OverflowError
  else if 256 ^ length <=? n then Raise OverflowError
  else
    let le := digits_le (Z.to_nat length) n in
    Return (if String.eqb order "little" then le else rev le).

(** [int.from_bytes(value, order)], unsigned. *)
Definition from_bytes (value : list byte) (order : string) : outcome Z :=
  if String.eqb order "little" then Return (of_digits_le value)
  else if String.eqb order "big" then Return (of_digits_le (rev value))
  else Raise ValueError.

End PyInt.

(** ** Python string primitives *)

Module PyStr.

(** The binary digits of a positive number, most significant first. *)
Fixpoint binary_digits (p : positive) : string :=
  match p with
  | xH => "1"
  | xO q => String.append (binary_digits q) "0"
  | xI q => String.append (binary_digits q) "1"
  end.

(** [bin(n)]: ['0b...'], with a leading ['-'] for a negative number. *)
Definition bin (n : Z) : string :=
  match n with
  | Z0 => "0b0"
  | Zpos p => String.append "0b" (binary_digits p)
  | Zneg p => String.append "-0b" (binary_digits p)
  end.

(** [s[k:]] *)
Fixpoint slice_from (k : nat) (s : string) : string :=
  match k, s with
  | O, _ => s
  | S k', String _ rest => slice_from k' rest
  | S _, EmptyString => EmptyString
  end.

(** ['0' * k] *)
Fixpoint zeros (k : nat) : string :=
  match k with
  | O => EmptyString
  | S k' => String "0" (zeros k')
  end.

(** [s.zfill(width)]: zeros go on the left, after a leading sign. *)
Definition zfill (s : string) (width : Z) : string :=
  let len := Z.of_nat (String.length s) in
  if width <=? len then s
  else
    let fill := zeros (Z.to_nat (width - len)) in
    match s with
    | String c rest =>
        if (Ascii.eqb c "+" || Ascii.eqb c "-")%bool
        then String c (String.append fill rest)
        else String.append fill s
    | EmptyString => fill
    end.

(** [str(n)] for an integer. *)
Definition str (n : Z) : string := NilZero.string_of_int (Z.to_int n).

End PyStr.

(** ** class BitField *)

Module BitField.

Record t : Type := mk { _value : option Z; max_bits : Z }.

(** [__init__] *)
Definition init (max_bits : Z) : t := {| _value := None; max_bits := max_bits |}.

(** the [value] property *)
Definition value (self : t) : option Z := _value self.

(** [mask(value, bits)]: [value & ((1 << bits) - 1)] *)
Definition mask (value bits : Z) : outcome Z :=
  let! m := PyInt.lshift 1 bits in
  Return (Z.land value (m - 1)).

Definition is_null (self : t) : bool :=
  match value self with
  | None => true
  | Some _ => false
  end.

(** The [value] setter, reached through [assign]: the slot is updated only
    when the mask was computed. *)
Definition assign (self : t) (value : Z) : outcome t :=
  let! v := mask value (max_bits self) in
  Return {| _value := Some v; max_bits := max_bits self |}.

(** [repr_as_binary(value)]: [b = bin(value)[2:]], then
    [b.zfill(len(b) + -len(b) % 8)]. *)
Definition repr_as_binary (value : Z) : string :=
  let b := PyStr.slice_from 2 (PyStr.bin value) in
  let len := Z.of_nat (String.length b) in
  PyStr.zfill b (len + (- len) mod 8).

(** [__repr__]: [f"{repr_as_binary(self._value or 0)}: {self.max_bits}"];
    [None or 0] and [0 or 0] are both [0]. *)
Definition repr (self : t) : string :=
  let shown := match _value self with
               | Some v => if v =? 0 then 0 else v
               | None => 0
               end in
  String.append (repr_as_binary shown)
    (String.append ": " (PyStr.str (max_bits self))).

End BitField.

Abbreviation BitField := BitField.t.

(** ** The mutable state seen by the methods of one array *)

Record state : Type := mkState {
  data : list BitField;            (* [self.data] of the receiver *)
  sentinel_value : option Z        (* [_bits_sentinel._value] *)
}.

(** [_bits_sentinel = BitField(0)]: a module-level slot of width 0. *)
Definition _bits_sentinel (st : state) : BitField :=
  {| BitField._value := sentinel_value st; BitField.max_bits := 0 |}.

Definition M (A : Type) : Type := state -> outcome A * state.

Definition ret {A} (a : A) : M A := fun st => (Return a, st).

Definition raise {A} (e : exn) : M A := fun st => (Raise e, st).

Definition bind {A B} (m : M A) (k : A -> M B) : M B :=
  fun st =>
    match m st with
    | (Return a, st') => k a st'
    | (Raise e, st') => (Raise e, st')
    end.

Definition lift {A} (o : outcome A) : M A := fun st => (o, st).

Definition get_data : M (list BitField) := fun st => (Return (data st), st).

Definition put_data (d : list BitField) : M unit :=
  fun st => (Return tt, {| data := d; sentinel_value := sentinel_value st |}).

Notation "'let*' x ':=' m 'in' k" := (bind m (fun x => k))
  (at level 10, x name, m at level 100, k at level 200).

(** The receiver, as returned by the methods that end in [return self]. *)
Inductive ref : Type := Self.

(** The argument of [BitFieldArray.assign]: an [int], an iterable of ints, or
    an object that is neither. *)
Inductive arg : Type :=
| Int (value : Z)
| Iterable (values : list Z)
| Other.

(** ** class BitFieldArray *)

Module BitFieldArray.

(** [__init__(self, *fields)]: the receiver's [data] becomes
    [map(BitField, fields)]; the widths are not inspected. *)
Definition init (fields : list Z) : M ref :=
  let* _ := put_data (map BitField.init fields) in
  ret Self.

(** The loop [for value, bits in zip(value, generator): bits.assign(value)]
    where [generator] lazily yields the null slots of [self.data].  [zip]
    asks the values first, then the generator; a slot is mutated in place,
    so when a later [assign] raises, the earlier slots stay assigned. *)
Fixpoint assign_loop (values : list Z) (slots : list BitField)
  : outcome unit * list BitField :=
  match values with
  | [] => (Return tt, slots)
  | value :: values' =>
      match slots with
      | [] => (Return tt, [])
      | bits :: slots' =>
          if BitField.is_null bits then
            match BitField.assign bits value with
            | Return bits' =>
                let (r, rest) := assign_loop values' slots' in
                (r, bits' :: rest)
            | Raise e => (Raise e, slots)
            end
          else
            let (r, rest) := assign_loop values slots' in
            (r, bits :: rest)
      end
  end.

Definition assign (value : arg) : M ref :=
  fun st =>
    match value with
    | Int value =>
        (* [next(generator, _bits_sentinel)] *)
        match list_find (fun bits => BitField.is_null bits) (data st) with
        | Some (i, series_of_bits) =>
            match BitField.assign series_of_bits value with
            | Return bits' =>
                (Return Self,
                 {| data := <[i := bits']> (data st);
                    sentinel_value := sentinel_value st |})
            | Raise e => (Raise e, st)
            end
        | None =>
            match BitField.assign (_bits_sentinel st) value with
            | Return bits' =>
                (Return Self,
                 {| data := data st;
                    sentinel_value := BitField.value bits' |})
            | Raise e => (Raise e, st)
            end
        end
    | Iterable values =>
        let (r, slots) := assign_loop values (data st) in
        let st' := {| data := slots; sentinel_value := sentinel_value st |} in
        match r with
        | Return _ => (Return Self, st')
        | Raise e => (Raise e, st')
        end
    | Other => (Return Self, st)
    end.

(** [del self.data[index]]: a negative index counts from the end. *)
Definition delete (index : Z) : M unit :=
  let* slots := get_data in
  let n := Z.of_nat (length slots) in
  let i := if index <? 0 then index + n else index in
  if (i <? 0) || (n <=? i) then raise IndexError
  else put_data (base.delete (Z.to_nat i) slots).

(** The loop of [export], with its two accumulators. *)
Fixpoint export_loop (slots : list BitField) (n pushed : Z) : outcome Z :=
  match slots with
  | [] => Return n
  | i :: slots' =>
      match BitField.value i with
      | None => Return n                                  (* [break] *)
      | Some v =>
          let! s := PyInt.lshift v pushed in
          export_loop slots' (Z.lor n s) (pushed + BitField.max_bits i)
      end
  end.

Definition export : M Z :=
  let* slots := get_data in
  lift (export_loop slots 0 0).

Definition export_as_bytes (order : string) : M (list byte) :=
  let* data := export in
  lift (PyInt.to_bytes data ((PyInt.bit_length data + 7) / 8) order).

Definition to_list : M (list (option Z)) :=
  let* slots := get_data in
  ret (map BitField.value slots).

(** The loop of [from_int]: one candidate per slot, in order. *)
Fixpoint from_int_loop (slots : list BitField) (value : Z) (data : list Z)
  : outcome (list Z) :=
  match slots with
  | [] => Return data
  | bits :: slots' =>
      let! m := PyInt.lshift 1 (BitField.max_bits bits) in
      let! value' := PyInt.rshift value (BitField.max_bits bits) in
      from_int_loop slots' value' (data ++ [Z.land value (m - 1)])
  end.

Definition from_int (value : Z) : M ref :=
  let* slots := get_data in
  let* data := lift (from_int_loop slots value []) in
  assign (Iterable data).

Definition from_bytes (value : list byte) (order : string) : M ref :=
  let* as_int := lift (PyInt.from_bytes value order) in
  from_int as_int.

End BitFieldArray.

(** A newly constructed array, in an interpreter whose sentinel holds [sv]. *)
Definition fresh (fields : list Z) (sv : option Z) : state :=
  snd (BitFieldArray.init fields {| data := []; sentinel_value := sv |}).

(** ** Programs over one array *)

(** A call of one of the methods that class [BitFieldArray] itself defines.
    Assigning to a slot reached by indexing, [a[i].assign(v)], and the list
    methods that the class inherits from [UserList] are not calls of this
    type. *)
Inductive op : Type :=
| OpAssign (value : arg)
| OpDelete (index : Z)
| OpExport
| OpExportAsBytes (order : string)
| OpToList
| OpFromInt (value : Z)
| OpFromBytes (value : list byte) (order : string).

(** The state left by one call, whether it returned or raised. *)
Definition exec (o : op) (st : state) : state :=
  match o with
  | OpAssign value => snd (BitFieldArray.assign value st)
  | OpDelete index => snd (BitFieldArray.delete index st)
  | OpExport => snd (BitFieldArray.export st)
  | OpExportAsBytes order => snd (BitFieldArray.export_as_bytes order st)
  | OpToList => snd (BitFieldArray.to_list st)
  | OpFromInt value => snd (BitFieldArray.from_int value st)
  | OpFromBytes value order => snd (BitFieldArray.from_bytes value order st)
  end.

Definition exec_all (ops : list op) (st : state) : state :=
  fold_left (fun s o => exec o s) ops st.

(** ** Predicates on slots *)

(** A filled slot holds a value that fits its width. *)
Definition slot_ok (b : BitField) : Prop :=
  match BitField.value b with
  | Some v => 0 <= v < 2 ^ BitField.max_bits b
  | None => True
  end.

Definition filled (b : BitField) : Prop := BitField.is_null b = false.

Definition empty (b : BitField) : Prop := BitField.is_null b = true.

(** The slot of width [w] holding [v]. *)
Definition slot (w v : Z) : BitField :=
  {| BitField._value := Some v; BitField.max_bits := w |}.

(** Total width of a run of slots. *)
Definition width (slots : list BitField) : Z :=
  fold_right (fun b acc => BitField.max_bits b + acc) 0 slots.

(** Number of empty slots among the first [j]. *)
Definition empties_before (j : nat) (slots : list BitField) : nat :=
  length (List.filter BitField.is_null (take j slots)).

(** Every width is non-negative, as the data model asks. *)
Definition widths_ok (slots : list BitField) : Prop :=
  Forall (fun b => 0 <= BitField.max_bits b) slots.

(** The invariant of the arrays that the methods produce. *)
Definition inv (st : state) : Prop := Forall slot_ok (data st).

(** Widths paired with values that fit them. *)
Definition fits (w v : Z) : Prop := 0 <= w /\ 0 <= v < 2 ^ w.

(** The byte orders that [int.to_bytes] and [int.from_bytes] accept. *)
Definition valid_order (order : string) : Prop :=
  order = "little"%string \/ order = "big"%string.

(** The byte count computed by [export_as_bytes]. *)
Definition byte_count (n : Z) : Z := (PyInt.bit_length n + 7) / 8.

(** ** Reference descriptions of the methods *)

(** What the slot [b] at position [j] becomes when [values] are assigned in
    bulk: a filled slot is kept; an empty slot takes the value whose rank
    among [values] is the slot's rank among the empty slots, if there is
    one. *)
Definition paired (values : list Z) (slots : list BitField) (j : nat)
  (b : BitField) : BitField :=
  if BitField.is_null b then
    match values !! empties_before j slots with
    | Some v =>
        slot (BitField.max_bits b)
             (Z.land v (Z.shiftl 1 (BitField.max_bits b) - 1))
    | None => b
    end
  else b.

(** The candidates of [from_int]: slot by slot, the low [max_bits] bits of
    what is left of [value]. *)
Fixpoint candidates (slots : list BitField) (value : Z) : list Z :=
  match slots with
  | [] => []
  | bits :: rest =>
      Z.land value (Z.shiftl 1 (BitField.max_bits bits) - 1)
      :: candidates rest (Z.shiftr value (BitField.max_bits bits))
  end.

(** The packed integer of a run of slots, written from the inside out: a
    slot's value sits below everything that follows it. *)
Fixpoint pack (slots : list BitField) : Z :=
  match slots with
  | [] => 0
  | b :: rest =>
      match BitField.value b with
      | None => 0
      | Some v => Z.lor v (Z.shiftl (pack rest) (BitField.max_bits b))
      end
  end.

(** The export rule in the specification's words: walk the slots that come
    before the first empty one, doing [result |= value << cumulative_bits]
    and then [cumulative_bits += max_bits].  First, the [(value, max_bits)]
    pairs of those slots. *)
Fixpoint filled_prefix (slots : list BitField) : list (Z * Z) :=
  match slots with
  | [] => []
  | b :: rest =>
      match BitField.value b with
      | None => []
      | Some v => (v, BitField.max_bits b) :: filled_prefix rest
      end
  end.

(** One step of that walk, on the pair [(result, cumulative_bits)]. *)
Definition accumulate (acc : Z * Z) (s : Z * Z) : Z * Z :=
  let (result, cumulative_bits) := acc in
  let (v, max_bits) := s in
  (Z.lor result (Z.shiftl v cumulative_bits), cumulative_bits + max_bits).

(** The exported integer according to that rule. *)
Definition export_spec (slots : list BitField) : Z :=
  fst (fold_left accumulate (filled_prefix slots) (0, 0)).

(** The claim of positional decoding as the specification words it: every
    slot that was empty at call time ends up with the candidate read at its
    own offset, and every filled slot is kept. *)
Definition decodes_positionally (st : state) (value : Z) : Prop :=
  exists slots',
    BitFieldArray.from_int value st
    = (Return Self, {| data := slots'; sentinel_value := sentinel_value st |})
    /\ length slots' = length (data st)
    /\ forall (j : nat) (b : BitField),
         data st !! j = Some b ->
         (filled b -> slots' !! j = Some b)
         /\ (empty b ->
             slots' !! j
             = Some (slot (BitField.max_bits b)
                          (Z.land (Z.shiftr value (width (take j (data st))))
                                  (Z.shiftl 1 (BitField.max_bits b) - 1)))).

(** The claim of bulk assignment as the specification words it, for one
    array and one sequence: the call returns the array, filled slots are
    kept, and the empty slot with [k] empty slots before it takes the [k]-th
    value masked to its width, or stays empty when there is no such value. *)
Definition pairs_values_with_empty_slots (st : state) (values : list Z)
  : Prop :=
  exists slots',
    BitFieldArray.assign (Iterable values) st
    = (Return Self, {| data := slots'; sentinel_value := sentinel_value st |})
    /\ length slots' = length (data st)
    /\ forall (j : nat) (b : BitField),
         data st !! j = Some b ->
         (filled b -> slots' !! j = Some b)
         /\ (empty b ->
             forall v, values !! empties_before j (data st) = Some v ->
             slots' !! j
             = Some (slot (BitField.max_bits b)
                          (Z.land v (Z.shiftl 1 (BitField.max_bits b) - 1))))
         /\ (empty b ->
             (length values <= empties_before j (data st))%nat ->
             slots' !! j = Some b).

(** Construction from [fields] raises. *)
Definition rejected (fields : list Z) (st : state) : Prop :=
  exists e st', BitFieldArray.init fields st = (Raise e, st').

(** ** Auxiliary descriptions *)

(** The slots after one scalar assignment that finds an empty slot: the
    first empty slot takes the value masked to its width. *)
Fixpoint fill_first (v : Z) (slots : list BitField) : list BitField :=
  match slots with
  | [] => []
  | b :: rest =>
      if BitField.is_null b
      then slot (BitField.max_bits b)
                (Z.land v (Z.shiftl 1 (BitField.max_bits b) - 1)) :: rest
      else b :: fill_first v rest
  end.

(** What decoding an export gives back: the values before the first empty
    slot, then 0 for that slot and every slot after it. *)
Fixpoint decoded (slots : list BitField) : list Z :=
  match slots with
  | [] => []
  | b :: rest =>
      match BitField.value b with
      | Some v => v :: decoded rest
      | None => repeat 0 (length slots)
      end
  end.

(** Reading a string of binary digits, most significant first; [None] when
    a character is not a binary digit. *)
Fixpoint parse_binary_from (acc : Z) (s : string) : option Z :=
  match s with
  | EmptyString => Some acc
  | String c rest =>
      if Ascii.eqb c "0" then parse_binary_from (2 * acc) rest
      else if Ascii.eqb c "1" then parse_binary_from (2 * acc + 1) rest
      else None
  end.

Definition parse_binary (s : string) : option Z := parse_binary_from 0 s.

(** No filled slot comes after an empty one. *)
Fixpoint contiguous (slots : list BitField) : Prop :=
  match slots with
  | [] => True
  | b :: rest =>
      if BitField.is_null b then Forall empty rest else contiguous rest
  end.

(** A slot's value, read as 0 when the slot is empty. *)
Definition value_or_zero (b : BitField) : Z :=
  match BitField.value b with
  | Some v => v
  | None => 0
  end.

(** The calls that do not remove a slot. *)
Definition keeps_slots (o : op) : Prop :=
  match o with
  | OpDelete _ => False
  | _ => True
  end.

(** * Properties *)

(** ** Bit arithmetic *)

Lemma shiftl_1_pred (w : Z) : Z.shiftl 1 w - 1 = Z.ones w.
Proof. unfold Z.ones. lia. Qed.

Lemma land_mask_mod (v w : Z) :
  0 <= w -> Z.land v (Z.shiftl 1 w - 1) = v mod 2 ^ w.
Proof. intros Hw. rewrite shiftl_1_pred. now apply Z.land_ones. Qed.

Lemma land_mask_range (v w : Z) :
  0 <= w -> 0 <= Z.land v (Z.shiftl 1 w - 1) < 2 ^ w.
Proof.
  intros Hw. rewrite land_mask_mod by assumption.
  apply Z.mod_pos_bound. now apply Z.pow_pos_nonneg.
Qed.

Lemma land_mask_small (v w : Z) :
  0 <= v < 2 ^ w -> Z.land v (Z.shiftl 1 w - 1) = v.
Proof.
  intros Hv. destruct (Z.ltb_spec w 0) as [Hneg | Hw].
  - rewrite Z.pow_neg_r in Hv by assumption. lia.
  - rewrite land_mask_mod by assumption. now apply Z.mod_small.
Qed.

Lemma land_mask_idem (v w : Z) :
  0 <= w ->
  Z.land (Z.land v (Z.shiftl 1 w - 1)) (Z.shiftl 1 w - 1)
  = Z.land v (Z.shiftl 1 w - 1).
Proof. intros Hw. now rewrite <- Z.land_assoc, Z.land_diag. Qed.

(** ** BitField *)

Lemma mask_nonneg (v bits : Z) :
  0 <= bits -> BitField.mask v bits = Return (Z.land v (Z.shiftl 1 bits - 1)).
Proof.
  intros Hb. unfold BitField.mask, PyInt.lshift.
  destruct (Z.ltb_spec bits 0); [lia | reflexivity].
Qed.

Lemma mask_negative (v bits : Z) :
  bits < 0 -> BitField.mask v bits = Raise ValueError.
Proof.
  intros Hb. unfold BitField.mask, PyInt.lshift.
  destruct (Z.ltb_spec bits 0); [reflexivity | lia].
Qed.

Lemma assign_nonneg (self : BitField) (v : Z) :
  0 <= BitField.max_bits self ->
  BitField.assign self v
  = Return (slot (BitField.max_bits self)
                 (Z.land v (Z.shiftl 1 (BitField.max_bits self) - 1))).
Proof. intros Hw. unfold BitField.assign. now rewrite mask_nonneg. Qed.

Lemma assign_negative (self : BitField) (v : Z) :
  BitField.max_bits self < 0 -> BitField.assign self v = Raise ValueError.
Proof. intros Hw. unfold BitField.assign. now rewrite mask_negative. Qed.

Lemma assign_slot_ok (self self' : BitField) (v : Z) :
  BitField.assign self v = Return self' -> slot_ok self'.
Proof.
  intros H. destruct (Z.ltb_spec (BitField.max_bits self) 0) as [Hn | Hw].
  - rewrite assign_negative in H by assumption. discriminate.
  - rewrite assign_nonneg in H by assumption. injection H as <-.
    unfold slot_ok, slot. simpl. now apply land_mask_range.
Qed.



(** ** The slot invariant is kept by every method *)

Lemma assign_loop_nil_values (slots : list BitField) :
  BitFieldArray.assign_loop [] slots = (Return tt, slots).
Proof. now destruct slots. Qed.

Lemma assign_loop_slot_ok (values : list Z) (slots : list BitField) :
  Forall slot_ok slots ->
  Forall slot_ok (snd (BitFieldArray.assign_loop values slots)).
Proof.
  intros Hok. revert values.
  induction Hok as [|b slots Hb Hrest IH]; intros [|v values]; simpl;
    try (now constructor).
  destruct (BitField.is_null b).
  - destruct (BitField.assign b v) as [b'|e] eqn:Hassign.
    + specialize (IH values).
      destruct (BitFieldArray.assign_loop values slots) as [r rest]. simpl in *.
      constructor; [eapply assign_slot_ok; eassumption | assumption].
    + simpl. now constructor.
  - specialize (IH (v :: values)).
    destruct (BitFieldArray.assign_loop (v :: values) slots) as [r rest].
    simpl in *. now constructor.
Qed.

Lemma assign_inv (value : arg) (st : state) :
  inv st -> inv (snd (BitFieldArray.assign value st)).
Proof.
  unfold inv. intros Hok. destruct value as [v | values |]; simpl.
  - destruct (list_find _ (data st)) as [[i b]|] eqn:Hfind.
    + destruct (BitField.assign b v) as [b'|e] eqn:Hassign; simpl; [|assumption].
      apply Forall_insert; [assumption|]. eapply assign_slot_ok; eassumption.
    + destruct (BitField.assign (_bits_sentinel st) v); simpl; assumption.
  - pose proof (assign_loop_slot_ok values (data st) Hok) as H.
    destruct (BitFieldArray.assign_loop values (data st)) as [r rest].
    destruct r; simpl in *; assumption.
  - assumption.
Qed.

Lemma delete_inv (index : Z) (st : state) :
  inv st -> inv (snd (BitFieldArray.delete index st)).
Proof.
  unfold inv, BitFieldArray.delete, bind, get_data, raise, put_data.
  intros Hok. destruct (_ || _); simpl; [assumption|]. now apply Forall_delete.
Qed.

Lemma export_state (st : state) : snd (BitFieldArray.export st) = st.
Proof.
  unfold BitFieldArray.export, bind, get_data, lift.
  now destruct (BitFieldArray.export_loop (data st) 0 0).
Qed.

Lemma export_as_bytes_state (order : string) (st : state) :
  snd (BitFieldArray.export_as_bytes order st) = st.
Proof.
  unfold BitFieldArray.export_as_bytes, bind.
  pose proof (export_state st) as H.
  destruct (BitFieldArray.export st) as [[n|e] st']; simpl in *; subst;
    reflexivity.
Qed.

Lemma from_int_inv (value : Z) (st : state) :
  inv st -> inv (snd (BitFieldArray.from_int value st)).
Proof.
  intros Hok. unfold BitFieldArray.from_int, bind, get_data, lift.
  destruct (BitFieldArray.from_int_loop (data st) value []) as [cands|e];
    [|assumption].
  now apply assign_inv.
Qed.

Lemma from_bytes_inv (value : list byte) (order : string) (st : state) :
  inv st -> inv (snd (BitFieldArray.from_bytes value order st)).
Proof.
  intros Hok. unfold BitFieldArray.from_bytes, bind, lift.
  destruct (PyInt.from_bytes value order) as [n|e]; [|assumption].
  now apply from_int_inv.
Qed.

Lemma exec_inv (o : op) (st : state) : inv st -> inv (exec o st).
Proof.
  intros Hok. destruct o; unfold exec.
  - now apply assign_inv.
  - now apply delete_inv.
  - now rewrite export_state.
  - now rewrite export_as_bytes_state.
  - assumption.
  - now apply from_int_inv.
  - now apply from_bytes_inv.
Qed.

Lemma exec_all_inv (ops : list op) (st : state) :
  inv st -> inv (exec_all ops st).
Proof.
  revert st. induction ops as [|o ops IH]; intros st Hok; simpl.
  - assumption.
  - apply IH. now apply exec_inv.
Qed.

Lemma fresh_data (fields : list Z) (sv : option Z) :
  data (fresh fields sv) = map BitField.init fields.
Proof. reflexivity. Qed.

Lemma fresh_inv (fields : list Z) (sv : option Z) : inv (fresh fields sv).
Proof.
  unfold inv, fresh. simpl. induction fields as [|w fields IH]; simpl.
  - constructor.
  - constructor; [exact I | exact IH].
Qed.

(** ** Bulk assignment, slot by slot *)

Lemma empties_before_O (slots : list BitField) : empties_before 0 slots = 0%nat.
Proof. unfold empties_before. now rewrite take_0. Qed.

Lemma empties_before_S (j : nat) (b : BitField) (slots : list BitField) :
  empties_before (S j) (b :: slots)
  = ((if BitField.is_null b then 1 else 0) + empties_before j slots)%nat.
Proof. unfold empties_before. simpl. now destruct (BitField.is_null b). Qed.

Lemma assign_loop_spec (slots : list BitField) :
  widths_ok slots ->
  forall values : list Z,
  exists slots',
    BitFieldArray.assign_loop values slots = (Return tt, slots')
    /\ length slots' = length slots
    /\ forall (j : nat) (b : BitField),
         slots !! j = Some b -> slots' !! j = Some (paired values slots j b).
Proof.
  induction 1 as [|b0 slots Hw Hrest IH]; intros values.
  - exists []. destruct values; simpl;
      (split; [reflexivity | split; [reflexivity | intros j b Hj; discriminate]]).
  - destruct values as [|v values].
    + exists (b0 :: slots). simpl. split; [reflexivity|]. split; [reflexivity|].
      intros j b Hj. rewrite Hj. f_equal. unfold paired.
      destruct (BitField.is_null b); reflexivity.
    + simpl. destruct (BitField.is_null b0) eqn:Hnull.
      * rewrite assign_nonneg by assumption.
        destruct (IH values) as (rest & Hloop & Hlen & Hlook).
        rewrite Hloop. eexists. split; [reflexivity|].
        split; [simpl; now rewrite Hlen|].
        intros [|j] b Hj; simpl in *.
        -- injection Hj as <-. unfold paired.
           now rewrite Hnull, empties_before_O.
        -- rewrite (Hlook _ _ Hj). unfold paired.
           now rewrite empties_before_S, Hnull.
      * destruct (IH (v :: values)) as (rest & Hloop & Hlen & Hlook).
        rewrite Hloop. eexists. split; [reflexivity|].
        split; [simpl; now rewrite Hlen|].
        intros [|j] b Hj; simpl in *.
        -- injection Hj as <-. unfold paired. now rewrite Hnull.
        -- rewrite (Hlook _ _ Hj). unfold paired.
           now rewrite empties_before_S, Hnull.
Qed.


Lemma assign_iterable_spec (values : list Z) (st : state) :
  widths_ok (data st) ->
  exists slots',
    BitFieldArray.assign (Iterable values) st
    = (Return Self, {| data := slots'; sentinel_value := sentinel_value st |})
    /\ length slots' = length (data st)
    /\ forall (j : nat) (b : BitField),
         data st !! j = Some b ->
         slots' !! j = Some (paired values (data st) j b).
Proof.
  intros Hw. destruct (assign_loop_spec _ Hw values) as (slots' & Hloop & Hrest).
  exists slots'. split; [|exact Hrest].
  unfold BitFieldArray.assign. now rewrite Hloop.
Qed.

(** The same description when only the empty slots that get a value are
    known to have a width that is not negative. *)
Lemma assign_loop_spec_paired (slots : list BitField) (values : list Z) :
  (forall (j : nat) (b : BitField),
      slots !! j = Some b -> empty b ->
      (empties_before j slots < length values)%nat ->
      0 <= BitField.max_bits b) ->
  exists slots',
    BitFieldArray.assign_loop values slots = (Return tt, slots')
    /\ length slots' = length slots
    /\ forall (j : nat) (b : BitField),
         slots !! j = Some b -> slots' !! j = Some (paired values slots j b).
Proof.
  revert values. induction slots as [|b0 slots IH]; intros values Hpaired.
  - exists []. destruct values; simpl;
      (split; [reflexivity | split; [reflexivity | intros j b Hj; discriminate]]).
  - destruct values as [|v values].
    + exists (b0 :: slots). simpl. split; [reflexivity|]. split; [reflexivity|].
      intros j b Hj. rewrite Hj. f_equal. unfold paired.
      destruct (BitField.is_null b); reflexivity.
    + simpl. destruct (BitField.is_null b0) eqn:Hnull.
      * assert (Hw : 0 <= BitField.max_bits b0).
        { apply (Hpaired 0%nat b0 eq_refl Hnull).
          rewrite empties_before_O. simpl. lia. }
        rewrite assign_nonneg by assumption.
        destruct (IH values) as (rest & Hloop & Hlen & Hlook).
        { intros j b Hj He Hk. apply (Hpaired (S j) b Hj He).
          rewrite empties_before_S, Hnull. simpl. lia. }
        rewrite Hloop. eexists. split; [reflexivity|].
        split; [simpl; now rewrite Hlen|].
        intros [|j] b Hj; simpl in *.
        -- injection Hj as <-. unfold paired.
           now rewrite Hnull, empties_before_O.
        -- rewrite (Hlook _ _ Hj). unfold paired.
           now rewrite empties_before_S, Hnull.
      * destruct (IH (v :: values)) as (rest & Hloop & Hlen & Hlook).
        { intros j b Hj He Hk. apply (Hpaired (S j) b Hj He).
          rewrite empties_before_S, Hnull. simpl in *. lia. }
        rewrite Hloop. eexists. split; [reflexivity|].
        split; [simpl; now rewrite Hlen|].
        intros [|j] b Hj; simpl in *.
        -- injection Hj as <-. unfold paired. now rewrite Hnull.
        -- rewrite (Hlook _ _ Hj). unfold paired.
           now rewrite empties_before_S, Hnull.
Qed.

(** The bulk loop on slots [pre ++ e :: post] where [e] is the first empty
    slot of negative width: [pre] is assigned as it would be alone, [e] and
    [post] are not touched, and the loop raises exactly when a value is
    left for [e]. *)
Lemma assign_loop_negative
  (pre post : list BitField) (e : BitField) (values : list Z) :
  Forall (fun b => empty b -> 0 <= BitField.max_bits b) pre ->
  empty e -> BitField.max_bits e < 0 ->
  BitFieldArray.assign_loop values (pre ++ e :: post)
  = (if (length (List.filter BitField.is_null pre) <? length values)%nat
     then Raise ValueError else Return tt,
     snd (BitFieldArray.assign_loop values pre) ++ e :: post).
Proof.
  intros Hpre He Hneg. revert values.
  induction Hpre as [|b pre Hb Hrest IH]; intros [|v values];
    cbn [app List.filter length].
  - now rewrite assign_loop_nil_values.
  - cbn [BitFieldArray.assign_loop]. unfold empty in He. rewrite He.
    now rewrite assign_negative by assumption.
  - now rewrite !assign_loop_nil_values.
  - cbn [BitFieldArray.assign_loop].
    destruct (BitField.is_null b) eqn:Hnull.
    + rewrite assign_nonneg by (now apply Hb). rewrite (IH values).
      destruct (BitFieldArray.assign_loop values pre) as [r rest].
      reflexivity.
    + rewrite (IH (v :: values)).
      destruct (BitFieldArray.assign_loop (v :: values) pre) as [r rest].
      reflexivity.
Qed.

(** ** Scalar assignment and deletion *)

Lemma list_find_null_cons (b : BitField) (slots : list BitField) :
  list_find (fun bits => BitField.is_null bits) (b :: slots)
  = if BitField.is_null b then Some (0%nat, b)
    else prod_map S id <$> list_find (fun bits => BitField.is_null bits) slots.
Proof. simpl. now destruct (BitField.is_null b). Qed.

Lemma list_find_filled (slots : list BitField) :
  Forall filled slots ->
  list_find (fun bits => BitField.is_null bits) slots = None.
Proof.
  intros Hfull. apply list_find_None.
  eapply Forall_impl; [exact Hfull|]. intros b Hb Hnull. unfold filled in Hb.
  rewrite Hb in Hnull. exact Hnull.
Qed.

Lemma sentinel_assign (st : state) (v : Z) :
  BitField.assign (_bits_sentinel st) v = Return (slot 0 0).
Proof.
  unfold BitField.assign, BitField.mask, PyInt.lshift, _bits_sentinel. simpl.
  unfold slot. now rewrite Z.land_0_r.
Qed.

Lemma delete_in_range (st : state) (index i : Z) :
  i = (if index <? 0 then index + Z.of_nat (length (data st)) else index) ->
  0 <= i < Z.of_nat (length (data st)) ->
  BitFieldArray.delete index st
  = (Return tt,
     {| data := take (Z.to_nat i) (data st) ++ drop (S (Z.to_nat i)) (data st);
        sentinel_value := sentinel_value st |}).
Proof.
  intros Hi Hrange.
  unfold BitFieldArray.delete, bind, get_data, raise, put_data. rewrite <- Hi.
  destruct (Z.ltb_spec i 0); [lia|].
  destruct (Z.leb_spec (Z.of_nat (length (data st))) i); [lia|]. simpl.
  now rewrite delete_take_drop.
Qed.

Lemma lookup_take_drop_lt {A} (l : list A) (k j : nat) :
  (j < k)%nat -> (k < length l)%nat -> (take k l ++ drop (S k) l) !! j = l !! j.
Proof.
  intros Hj Hk. rewrite lookup_app_l by (rewrite length_take; lia).
  now apply lookup_take_lt.
Qed.

Lemma lookup_take_drop_ge {A} (l : list A) (k j : nat) :
  (k <= j)%nat -> (k < length l)%nat ->
  (take k l ++ drop (S k) l) !! j = l !! S j.
Proof.
  intros Hj Hk. rewrite lookup_app_r by (rewrite length_take; lia).
  rewrite length_take, lookup_drop. f_equal. lia.
Qed.

(** ** Export *)

Lemma lshift_nonneg (a b : Z) :
  0 <= b -> PyInt.lshift a b = Return (Z.shiftl a b).
Proof. intros Hb. unfold PyInt.lshift. destruct (Z.ltb_spec b 0); [lia|easy]. Qed.

Lemma rshift_nonneg (a b : Z) :
  0 <= b -> PyInt.rshift a b = Return (Z.shiftr a b).
Proof. intros Hb. unfold PyInt.rshift. destruct (Z.ltb_spec b 0); [lia|easy]. Qed.

Lemma slot_ok_inv (b : BitField) (v : Z) :
  slot_ok b -> BitField.value b = Some v ->
  0 <= BitField.max_bits b /\ 0 <= v < 2 ^ BitField.max_bits b.
Proof.
  unfold slot_ok. intros Hok Hv. rewrite Hv in Hok. split; [|assumption].
  destruct (Z.ltb_spec (BitField.max_bits b) 0) as [Hn|]; [|assumption].
  rewrite Z.pow_neg_r in Hok by assumption. lia.
Qed.

Lemma slot_ok_width_filled (b : BitField) :
  filled b -> slot_ok b -> 0 <= BitField.max_bits b.
Proof.
  unfold filled, BitField.is_null. intros Hb Hok.
  destruct (BitField.value b) as [v|] eqn:Hv; [|discriminate].
  now destruct (slot_ok_inv b v Hok Hv).
Qed.

Lemma export_loop_accumulate (slots : list BitField) :
  Forall slot_ok slots ->
  forall n pushed, 0 <= pushed ->
  BitFieldArray.export_loop slots n pushed
  = Return (fst (fold_left accumulate (filled_prefix slots) (n, pushed))).
Proof.
  induction 1 as [|b slots Hb Hrest IH]; intros n pushed Hp; simpl.
  - reflexivity.
  - destruct (BitField.value b) as [v|] eqn:Hv; [|reflexivity].
    destruct (slot_ok_inv _ _ Hb Hv) as [Hw _].
    rewrite lshift_nonneg by assumption. simpl. apply IH. lia.
Qed.

Lemma export_loop_pack (slots : list BitField) :
  Forall slot_ok slots ->
  forall n pushed, 0 <= pushed ->
  BitFieldArray.export_loop slots n pushed
  = Return (Z.lor n (Z.shiftl (pack slots) pushed)).
Proof.
  induction 1 as [|b slots Hb Hrest IH]; intros n pushed Hp; simpl.
  - now rewrite Z.shiftl_0_l, Z.lor_0_r.
  - destruct (BitField.value b) as [v|] eqn:Hv.
    + destruct (slot_ok_inv _ _ Hb Hv) as [Hw _].
      rewrite lshift_nonneg by assumption. simpl.
      rewrite IH by lia. f_equal.
      rewrite Z.shiftl_lor, Z.shiftl_shiftl by assumption.
      rewrite (Z.add_comm pushed). symmetry. apply Z.lor_assoc.
    + now rewrite Z.shiftl_0_l, Z.lor_0_r.
Qed.

Lemma pack_nonneg (slots : list BitField) :
  Forall slot_ok slots -> 0 <= pack slots.
Proof.
  induction 1 as [|b slots Hb Hrest IH]; simpl; [lia|].
  destruct (BitField.value b) as [v|] eqn:Hv; [|lia].
  destruct (slot_ok_inv _ _ Hb Hv) as [Hw Hrange].
  apply Z.lor_nonneg. split; [lia|]. now apply Z.shiftl_nonneg.
Qed.

Lemma export_pack (st : state) :
  inv st -> BitFieldArray.export st = (Return (pack (data st)), st).
Proof.
  intros Hok. unfold BitFieldArray.export, bind, get_data, lift.
  rewrite export_loop_pack by (assumption || lia).
  now rewrite Z.shiftl_0_r, Z.lor_0_l.
Qed.

Lemma filled_prefix_app_empty (pre post : list BitField) (e : BitField) :
  Forall filled pre -> empty e ->
  filled_prefix (pre ++ e :: post) = filled_prefix pre.
Proof.
  intros Hpre He. induction Hpre as [|b pre Hb Hrest IH]; simpl.
  - unfold empty, BitField.is_null in He.
    now destruct (BitField.value e).
  - unfold filled, BitField.is_null in Hb.
    destruct (BitField.value b); [now rewrite IH | discriminate].
Qed.

(** ** Decoding *)

Lemma from_int_loop_candidates (slots : list BitField) :
  widths_ok slots ->
  forall value acc,
  BitFieldArray.from_int_loop slots value acc
  = Return (acc ++ candidates slots value).
Proof.
  induction 1 as [|b slots Hw Hrest IH]; intros value acc; simpl.
  - now rewrite app_nil_r.
  - rewrite lshift_nonneg, rshift_nonneg by assumption. simpl.
    rewrite IH. now rewrite <- app_assoc.
Qed.

Lemma from_int_loop_negative (slots : list BitField) (value : Z) (acc : list Z) :
  Exists (fun b => BitField.max_bits b < 0) slots ->
  BitFieldArray.from_int_loop slots value acc = Raise ValueError.
Proof.
  intros Hex. revert value acc.
  induction slots as [|b slots IH]; intros value acc.
  - inversion Hex.
  - simpl. unfold PyInt.lshift, PyInt.rshift.
    destruct (Z.ltb_spec (BitField.max_bits b) 0) as [Hn|Hw]; [reflexivity|].
    simpl. apply IH. inversion Hex; subst; [lia | assumption].
Qed.

Lemma candidates_length (slots : list BitField) (value : Z) :
  length (candidates slots value) = length slots.
Proof.
  revert value. induction slots as [|b slots IH]; intros value; simpl;
    [reflexivity | now rewrite IH].
Qed.

Lemma width_nonneg (slots : list BitField) : widths_ok slots -> 0 <= width slots.
Proof. induction 1; simpl; lia. Qed.



Lemma from_int_is_assign (value : Z) (st : state) :
  widths_ok (data st) ->
  BitFieldArray.from_int value st
  = BitFieldArray.assign (Iterable (candidates (data st) value)) st.
Proof.
  intros Hw. unfold BitFieldArray.from_int, bind, get_data, lift.
  now rewrite from_int_loop_candidates.
Qed.

(** ** Packing and decoding are inverse on in-range values *)

Lemma lor_shiftl_low (v p w : Z) :
  0 <= w -> 0 <= v < 2 ^ w ->
  Z.land (Z.lor v (Z.shiftl p w)) (Z.shiftl 1 w - 1) = v.
Proof.
  intros Hw Hv. rewrite Z.land_lor_distr_l.
  rewrite land_mask_small by assumption.
  rewrite land_mask_mod, Z.shiftl_mul_pow2 by assumption.
  rewrite Z.mod_mul by (apply Z.pow_nonzero; lia).
  apply Z.lor_0_r.
Qed.

Lemma lor_shiftl_high (v p w : Z) :
  0 <= w -> 0 <= v < 2 ^ w ->
  Z.shiftr (Z.lor v (Z.shiftl p w)) w = p.
Proof.
  intros Hw Hv. rewrite Z.shiftr_lor.
  rewrite (Z.shiftr_div_pow2 v), Z.div_small by assumption.
  rewrite Z.shiftr_shiftl_l, Z.sub_diag, Z.shiftl_0_r by lia.
  apply Z.lor_0_l.
Qed.

Lemma assign_loop_fresh (fields values : list Z) :
  Forall2 fits fields values ->
  BitFieldArray.assign_loop values (map BitField.init fields)
  = (Return tt, zip_with slot fields values).
Proof.
  induction 1 as [|w v fields values [Hw Hv] Hrest IH]; simpl.
  - reflexivity.
  - rewrite assign_nonneg by assumption. simpl.
    rewrite IH. now rewrite land_mask_small.
Qed.

Lemma zip_with_slot_ok (fields values : list Z) :
  Forall2 fits fields values -> Forall slot_ok (zip_with slot fields values).
Proof.
  induction 1 as [|w v fields values [Hw Hv] Hrest IH]; simpl;
    constructor; assumption.
Qed.

Lemma candidates_pack (fields values : list Z) :
  Forall2 fits fields values ->
  candidates (map BitField.init fields) (pack (zip_with slot fields values))
  = values.
Proof.
  induction 1 as [|w v fields values [Hw Hv] Hrest IH]; simpl.
  - reflexivity.
  - rewrite lor_shiftl_low, lor_shiftl_high by assumption. now rewrite IH.
Qed.

Lemma widths_ok_init (fields : list Z) :
  Forall (fun w => 0 <= w) fields -> widths_ok (map BitField.init fields).
Proof. induction 1; simpl; constructor; assumption. Qed.

Lemma fits_widths (fields values : list Z) :
  Forall2 fits fields values -> Forall (fun w => 0 <= w) fields.
Proof. induction 1 as [|w v ? ? [Hw _]]; constructor; assumption. Qed.

Lemma map_value_zip_with (fields values : list Z) :
  Forall2 fits fields values ->
  map BitField.value (zip_with slot fields values) = map Some values.
Proof. induction 1; simpl; [reflexivity | now f_equal]. Qed.

(** Assigning in-range values to a new array fills it with them. *)
Lemma assign_fresh (fields values : list Z) (sv : option Z) :
  Forall2 fits fields values ->
  BitFieldArray.assign (Iterable values) (fresh fields sv)
  = (Return Self,
     {| data := zip_with slot fields values; sentinel_value := sv |}).
Proof.
  intros Hfit. unfold BitFieldArray.assign, fresh. simpl.
  now rewrite assign_loop_fresh.
Qed.

(** Decoding the packed integer of in-range values on a new array. *)
Lemma from_int_pack_fresh (fields values : list Z) (sv : option Z) :
  Forall2 fits fields values ->
  BitFieldArray.from_int (pack (zip_with slot fields values)) (fresh fields sv)
  = (Return Self,
     {| data := zip_with slot fields values; sentinel_value := sv |}).
Proof.
  intros Hfit. rewrite from_int_is_assign.
  - rewrite fresh_data, candidates_pack by assumption. now apply assign_fresh.
  - apply widths_ok_init. eapply fits_widths; eassumption.
Qed.

(** ** Bytes *)

Lemma Z_of_byte_of_Z (z : Z) : PyInt.Z_of_byte (PyInt.byte_of_Z z) = z mod 256.
Proof.
  unfold PyInt.Z_of_byte, PyInt.byte_of_Z.
  assert (Hz : 0 <= z mod 256 < 256) by (apply Z.mod_pos_bound; lia).
  destruct (Byte.of_N (Z.to_N (z mod 256))) as [b|] eqn:Hb.
  - apply Byte.to_of_N in Hb. rewrite Hb. apply Z2N.id. lia.
  - apply Byte.of_N_None_iff in Hb. lia.
Qed.

Lemma digits_le_length (len : nat) (n : Z) :
  length (PyInt.digits_le len n) = len.
Proof.
  revert n. induction len as [|len IH]; intros n; simpl;
    [reflexivity | now rewrite IH].
Qed.

Lemma of_digits_le_digits_le (len : nat) (n : Z) :
  PyInt.of_digits_le (PyInt.digits_le len n) = n mod 256 ^ Z.of_nat len.
Proof.
  revert n. induction len as [|len IH]; intros n.
  - simpl. now rewrite Z.mod_1_r.
  - cbn [PyInt.digits_le PyInt.of_digits_le].
    rewrite Z_of_byte_of_Z, IH, Nat2Z.inj_succ, Z.pow_succ_r by lia.
    symmetry. apply Z.rem_mul_r; [lia|]. apply Z.pow_pos_nonneg; lia.
Qed.

Lemma bit_length_nonneg (n : Z) : 0 <= PyInt.bit_length n.
Proof.
  unfold PyInt.bit_length. destruct (n =? 0); [lia|].
  pose proof (Z.log2_nonneg (Z.abs n)). lia.
Qed.

Lemma bit_length_bound (n : Z) : 0 <= n -> n < 2 ^ PyInt.bit_length n.
Proof.
  intros Hn. unfold PyInt.bit_length. destruct (Z.eqb_spec n 0) as [->|Hne].
  - simpl. lia.
  - rewrite Z.abs_eq by assumption.
    destruct (Z.log2_spec n) as [_ Hlt]; [lia|]. exact Hlt.
Qed.

Lemma byte_count_ceil (n : Z) :
  PyInt.bit_length n <= 8 * byte_count n < PyInt.bit_length n + 8.
Proof.
  unfold byte_count.
  pose proof (Z.div_mod (PyInt.bit_length n + 7) 8 ltac:(lia)) as Hdm.
  pose proof (Z.mod_pos_bound (PyInt.bit_length n + 7) 8 ltac:(lia)). lia.
Qed.

Lemma byte_count_nonneg (n : Z) : 0 <= byte_count n.
Proof.
  pose proof (byte_count_ceil n). pose proof (bit_length_nonneg n). lia.
Qed.

Lemma byte_count_bound (n : Z) : 0 <= n -> n < 256 ^ byte_count n.
Proof.
  intros Hn. pose proof (byte_count_ceil n) as [Hle _].
  pose proof (byte_count_nonneg n) as Hc.
  change 256 with (2 ^ 8). rewrite <- Z.pow_mul_r by lia.
  eapply Z.lt_le_trans; [now apply bit_length_bound|].
  apply Z.pow_le_mono_r; lia.
Qed.

Lemma to_bytes_minimal (n : Z) (order : string) :
  0 <= n -> valid_order order ->
  exists bs,
    PyInt.to_bytes n (byte_count n) order = Return bs
    /\ Z.of_nat (length bs) = byte_count n
    /\ PyInt.from_bytes bs order = Return n.
Proof.
  intros Hn Horder.
  pose proof (byte_count_nonneg n) as Hc.
  pose proof (byte_count_bound n Hn) as Hb.
  assert (Hval : PyInt.of_digits_le (PyInt.digits_le (Z.to_nat (byte_count n)) n) = n).
  { rewrite of_digits_le_digits_le, Z2Nat.id by assumption.
    apply Z.mod_small. lia. }
  unfold PyInt.to_bytes, PyInt.from_bytes.
  destruct (Z.ltb_spec (byte_count n) 0); [lia|].
  destruct (Z.ltb_spec n 0); [lia|].
  destruct (Z.leb_spec (256 ^ byte_count n) n); [lia|].
  destruct Horder as [-> | ->]; simpl; eexists; (split; [reflexivity|]).
  - rewrite digits_le_length, Hval. split; [lia | reflexivity].
  - rewrite length_rev, digits_le_length, rev_involutive, Hval.
    split; [lia | reflexivity].
Qed.

Lemma export_as_bytes_spec (order : string) (st : state) :
  inv st -> valid_order order ->
  exists bs,
    BitFieldArray.export_as_bytes order st = (Return bs, st)
    /\ Z.of_nat (length bs) = byte_count (pack (data st))
    /\ PyInt.from_bytes bs order = Return (pack (data st)).
Proof.
  intros Hok Horder.
  destruct (to_bytes_minimal (pack (data st)) order) as (bs & Hbs & Hlen & Hback);
    [now apply pack_nonneg | assumption |].
  exists bs. split; [|split; assumption].
  unfold BitFieldArray.export_as_bytes, bind. rewrite export_pack by assumption.
  unfold lift. fold (byte_count (pack (data st))). now rewrite Hbs.
Qed.

(** ** Scenarios from the documentation *)

Example export_3_7_8_9 :
  fst (BitFieldArray.export
         (snd (BitFieldArray.assign (Iterable [5; 6; 7; 8])
                 (fresh [3; 7; 8; 9] None))))
  = Return (Z.lor (Z.lor (Z.lor 5 (Z.shiftl 6 3)) (Z.shiftl 7 10))
                  (Z.shiftl 8 18)).
Proof. reflexivity. Qed.

Example from_int_flags :
  fst (BitFieldArray.to_list
         (snd (BitFieldArray.from_int 62 (fresh [1; 1; 1; 1; 1; 1; 1] None))))
  = Return [Some 0; Some 1; Some 1; Some 1; Some 1; Some 1; Some 0].
Proof. reflexivity. Qed.

Example assign_truncates :
  BitField.assign (BitField.init 3) 11 = Return (slot 3 3).
Proof. reflexivity. Qed.

Example delete_then_export :
  let st := snd (BitFieldArray.assign (Iterable [5; 6; 7; 8])
                   (fresh [3; 7; 8; 9] None)) in
  let st' := snd (BitFieldArray.delete 1 st) in
  data st' = [slot 3 5; slot 8 7; slot 9 8]
  /\ fst (BitFieldArray.export st')
     = Return (Z.lor (Z.lor 5 (Z.shiftl 7 3)) (Z.shiftl 8 11)).
Proof. split; reflexivity. Qed.

Example delete_out_of_range :
  let st := fresh [3; 7] None in
  BitFieldArray.delete 2 st = (Raise IndexError, st)
  /\ BitFieldArray.delete (-3) st = (Raise IndexError, st).
Proof. split; reflexivity. Qed.

Example export_as_bytes_bad_order :
  fst (BitFieldArray.export_as_bytes "native" (fresh [3] None))
  = Raise ValueError.
Proof. reflexivity. Qed.

(** * The claims *)

(** ** Slots *)

(** C9.  A slot created with a positive width [w] accepts every integer [v]:
    [assign] does not raise, discards whatever the slot held, and stores
    exactly [v & ((1 << w) - 1)].  Consequently, whatever methods are called
    on a newly constructed array, and in whatever order, every slot that
    holds a value holds one with [0 <= value < 2 ^ max_bits]. *)
Theorem slot_assign_masks_and_stays_in_range :
  (forall (w v : Z) (prior : option Z),
      0 < w ->
      BitField.assign {| BitField._value := prior; BitField.max_bits := w |} v
      = Return {| BitField._value := Some (Z.land v (Z.shiftl 1 w - 1));
                  BitField.max_bits := w |})
  /\ (forall (fields : list Z) (sv : option Z) (ops : list op)
             (j : nat) (b : BitField) (v : Z),
         data (exec_all ops (fresh fields sv)) !! j = Some b ->
         BitField.value b = Some v ->
         0 <= v < 2 ^ BitField.max_bits b).
Proof.
  split.
  - intros w v prior Hw. rewrite assign_nonneg by (simpl; lia). reflexivity.
  - intros fields sv ops j b v Hj Hv.
    pose proof (exec_all_inv ops _ (fresh_inv fields sv)) as Hinv.
    unfold inv in Hinv. rewrite Forall_lookup in Hinv.
    now destruct (slot_ok_inv b v (Hinv _ _ Hj) Hv).
Qed.

Lemma slot_assign_masks_and_stays_in_range_witness :
  BitField.assign {| BitField._value := Some 5; BitField.max_bits := 3 |} 11
  = Return {| BitField._value := Some 3; BitField.max_bits := 3 |}
  /\ 0 <= 4 < 2 ^ 7.
Proof.
  destruct slot_assign_masks_and_stays_in_range as [Hassign Hrange]. split.
  - apply (Hassign 3 11 (Some 5)). lia.
  - apply (Hrange [3; 7] None
                  [OpAssign (Int 11); OpFromInt 300; OpDelete 0; OpAssign (Int 9)]
                  0%nat (slot 7 4) 4); reflexivity.
Defined.

(** ** Scalar assignment into a full array *)

(** C6.  When no slot of the array is empty, [assign] of a single integer
    returns the array and leaves its slots as they were: same count, same
    widths, same values.  The value lands in the width-0 sentinel, which
    then holds 0. *)
Theorem assign_int_full_array_is_noop (st : state) (v : Z) :
  Forall filled (data st) ->
  BitFieldArray.assign (Int v) st
  = (Return Self, {| data := data st; sentinel_value := Some 0 |}).
Proof.
  intros Hfull. unfold BitFieldArray.assign.
  rewrite list_find_filled by assumption. now rewrite sentinel_assign.
Qed.

Lemma assign_int_full_array_is_noop_witness :
  Forall filled [slot 3 5; slot 7 6]
  /\ BitFieldArray.assign (Int 9)
       {| data := [slot 3 5; slot 7 6]; sentinel_value := None |}
     = (Return Self,
        {| data := [slot 3 5; slot 7 6]; sentinel_value := Some 0 |}).
Proof.
  assert (H : Forall filled [slot 3 5; slot 7 6])
    by (repeat constructor).
  split; [exact H|].
  exact (assign_int_full_array_is_noop
           {| data := [slot 3 5; slot 7 6]; sentinel_value := None |} 9 H).
Defined.

(** ** Deletion *)

(** C10.  On an array of [n >= 1] slots, [delete(i)] with [-n <= i < 0] does
    not raise: it removes the slot at position [n + i]; the slots before it
    keep their positions and the slots after it move one position to the
    left. *)
Theorem delete_negative_index (st : state) (i : Z) :
  let n := Z.of_nat (length (data st)) in
  let k := Z.to_nat (n + i) in
  1 <= n -> - n <= i < 0 ->
  exists slots',
    BitFieldArray.delete i st
    = (Return tt, {| data := slots'; sentinel_value := sentinel_value st |})
    /\ S (length slots') = length (data st)
    /\ (forall j : nat, (j < k)%nat -> slots' !! j = data st !! j)
    /\ (forall j : nat, (k <= j)%nat -> slots' !! j = data st !! S j).
Proof.
  intros n k Hn Hi. subst n k.
  eexists. split; [|split; [|split]].
  - apply (delete_in_range st i (Z.of_nat (length (data st)) + i)).
    + destruct (Z.ltb_spec i 0); lia.
    + lia.
  - rewrite length_app, length_take, length_drop. lia.
  - intros j Hj. apply lookup_take_drop_lt; lia.
  - intros j Hj. apply lookup_take_drop_ge; lia.
Qed.

Lemma delete_negative_index_witness :
  exists slots',
    BitFieldArray.delete (-2)
      {| data := [slot 3 5; slot 7 6; BitField.init 8]; sentinel_value := None |}
    = (Return tt, {| data := slots'; sentinel_value := None |})
    /\ S (length slots') = 3%nat
    /\ (forall j : nat, (j < 1)%nat ->
          slots' !! j = [slot 3 5; slot 7 6; BitField.init 8] !! j)
    /\ (forall j : nat, (1 <= j)%nat ->
          slots' !! j = [slot 3 5; slot 7 6; BitField.init 8] !! S j).
Proof.
  apply (delete_negative_index
           {| data := [slot 3 5; slot 7 6; BitField.init 8];
              sentinel_value := None |} (-2)); simpl; lia.
Defined.

(** ** Bulk assignment *)

(** C7, as stated for every array, fails when an empty slot that gets a
    value has a negative width: on widths 3, -1, 4 and the values 1, 2, 3
    the call raises [ValueError] at the second slot, after the first slot
    was assigned, and does not return the array. *)
Lemma assign_iterable_every_array_counterexample :
  BitFieldArray.assign (Iterable [1; 2; 3]) (fresh [3; -1; 4] None)
  = (Raise ValueError,
     {| data := [slot 3 1; BitField.init (-1); BitField.init 4];
        sentinel_value := None |})
  /\ ~ pairs_values_with_empty_slots (fresh [3; -1; 4] None) [1; 2; 3].
Proof.
  split; [reflexivity|].
  intros (slots' & Hrun & _). vm_compute in Hrun. discriminate.
Qed.

(** C7, amended.  Provided every empty slot that gets a value has a width
    that is not negative, [assign] of a finite sequence of integers returns
    the array and keeps its length.  A slot that held a value at call time is
    kept as it was.  A slot that was empty at call time, with [k] empty slots
    before it, takes the [k]-th supplied value masked to the slot's own
    width; when fewer than [k + 1] values were supplied it stays empty. *)
Theorem assign_iterable_pairs_values_with_empty_slots
  (st : state) (values : list Z) :
  (forall (j : nat) (b : BitField),
      data st !! j = Some b -> empty b ->
      (empties_before j (data st) < length values)%nat ->
      0 <= BitField.max_bits b) ->
  exists slots',
    BitFieldArray.assign (Iterable values) st
    = (Return Self, {| data := slots'; sentinel_value := sentinel_value st |})
    /\ length slots' = length (data st)
    /\ forall (j : nat) (b : BitField),
         data st !! j = Some b ->
         (filled b -> slots' !! j = Some b)
         /\ (empty b ->
             forall v, values !! empties_before j (data st) = Some v ->
             slots' !! j
             = Some (slot (BitField.max_bits b)
                          (Z.land v (Z.shiftl 1 (BitField.max_bits b) - 1))))
         /\ (empty b ->
             (length values <= empties_before j (data st))%nat ->
             slots' !! j = Some b).
Proof.
  intros Hpaired.
  destruct (assign_loop_spec_paired (data st) values Hpaired)
    as (slots' & Hloop & Hlen & Hlook).
  exists slots'. split; [|split; [exact Hlen|]].
  { unfold BitFieldArray.assign. now rewrite Hloop. }
  intros j b Hj. rewrite (Hlook _ _ Hj). unfold paired, filled, empty.
  split; [|split].
  - now intros ->.
  - intros -> v ->. reflexivity.
  - intros -> Hshort. now rewrite lookup_ge_None_2.
Qed.

Lemma assign_iterable_pairs_values_with_empty_slots_witness :
  let slots := [BitField.init 3; slot 7 6; BitField.init 8;
                BitField.init (-9)] in
  exists slots',
    BitFieldArray.assign (Iterable [13; 300])
      {| data := slots; sentinel_value := None |}
    = (Return Self, {| data := slots'; sentinel_value := None |})
    /\ slots' !! 0%nat = Some (slot 3 5)
    /\ slots' !! 1%nat = Some (slot 7 6)
    /\ slots' !! 2%nat = Some (slot 8 44)
    /\ slots' !! 3%nat = Some (BitField.init (-9)).
Proof.
  intros slots.
  destruct (assign_iterable_pairs_values_with_empty_slots
              {| data := slots; sentinel_value := None |} [13; 300])
    as (slots' & Hrun & _ & Hlook).
  { intros [|[|[|[|j]]]] b Hj He Hk; simpl in Hj; try discriminate;
      injection Hj as <-; try (simpl; lia); try discriminate.
    vm_compute in Hk. lia. }
  exists slots'. split; [exact Hrun|].
  split; [|split; [|split]].
  - destruct (Hlook 0%nat (BitField.init 3) eq_refl) as (_ & Hpair & _).
    exact (Hpair eq_refl 13 eq_refl).
  - destruct (Hlook 1%nat (slot 7 6) eq_refl) as (Hkeep & _).
    exact (Hkeep eq_refl).
  - destruct (Hlook 2%nat (BitField.init 8) eq_refl) as (_ & Hpair & _).
    exact (Hpair eq_refl 300 eq_refl).
  - destruct (Hlook 3%nat (BitField.init (-9)) eq_refl) as (_ & _ & Hstay).
    apply (Hstay eq_refl). vm_compute. lia.
Defined.

(** ** Export *)

(** C3.  [export] returns the integer obtained by walking the slots in order
    with [result |= value << cumulative_bits], [cumulative_bits += max_bits],
    and stopping at the first empty slot.  The first empty slot and all that
    follows it contribute nothing, whether or not later slots hold values;
    an array that has no slots or whose first slot is empty exports 0.  The
    array is one whose filled slots hold values that fit their widths, which
    every array reached through the methods is. *)
Theorem export_accumulates_until_first_empty (st : state) :
  inv st ->
  BitFieldArray.export st = (Return (export_spec (data st)), st)
  /\ (forall (pre post : list BitField) (e : BitField),
         data st = pre ++ e :: post -> Forall filled pre -> empty e ->
         BitFieldArray.export st
         = (Return (export_spec pre), st))
  /\ ((forall e, head (data st) = Some e -> empty e) ->
      BitFieldArray.export st = (Return 0, st)).
Proof.
  intros Hok.
  assert (Hrun : BitFieldArray.export st = (Return (export_spec (data st)), st)).
  { unfold BitFieldArray.export, bind, get_data, lift.
    rewrite export_loop_accumulate by (assumption || lia). reflexivity. }
  split; [exact Hrun|]. split.
  - intros pre post e Hsplit Hpre He. rewrite Hrun. do 2 f_equal.
    unfold export_spec. rewrite Hsplit.
    now rewrite filled_prefix_app_empty.
  - intros Hhead. rewrite Hrun. do 2 f_equal. unfold export_spec.
    destruct (data st) as [|e slots]; [reflexivity|].
    specialize (Hhead e eq_refl). unfold empty, BitField.is_null in Hhead.
    simpl. now destruct (BitField.value e).
Qed.

Lemma export_accumulates_until_first_empty_witness :
  let st := {| data := [slot 3 5; BitField.init 7; slot 8 7; slot 9 8];
               sentinel_value := None |} in
  inv st
  /\ BitFieldArray.export st = (Return 5, st)
  /\ BitFieldArray.export st = (Return (export_spec [slot 3 5]), st).
Proof.
  intros st.
  assert (Hok : inv st) by (repeat constructor; simpl; lia).
  split; [exact Hok|].
  destruct (export_accumulates_until_first_empty st Hok) as (Hrun & Hcut & _).
  split; [exact Hrun|].
  specialize (Hcut [slot 3 5] [slot 8 7; slot 9 8] (BitField.init 7) eq_refl).
  assert (Hpre : Forall filled [slot 3 5]) by (repeat constructor).
  exact (Hcut Hpre eq_refl).
Defined.

(** ** Decoding into an array *)

Lemma empties_before_le (j : nat) (slots : list BitField) :
  (empties_before j slots <= j)%nat.
Proof.
  revert slots. induction j as [|j IH]; intros [|b slots];
    try (unfold empties_before; simpl; lia).
  rewrite empties_before_S. specialize (IH slots).
  destruct (BitField.is_null b); lia.
Qed.

(** C1.  The code at the failing input: widths 1 and 8, the first slot
    holding 1, the second empty, [from_int(2)].  The loop computes the
    candidate 0 for the first position and 1 for the second; [assign] then
    gives the first candidate to the only empty slot, so the second slot
    ends up holding 0 where its own positional candidate,
    [(2 >> 1) & ((1 << 8) - 1)], is 1. *)
Theorem from_int_misaligns_behind_filled_slot :
  let st := snd (BitFieldArray.assign (Int 1) (fresh [1; 8] None)) in
  data st = [slot 1 1; BitField.init 8]
  /\ BitFieldArray.from_int_loop (data st) 2 [] = Return [0; 1]
  /\ BitFieldArray.from_int 2 st
     = (Return Self,
        {| data := [slot 1 1; slot 8 0]; sentinel_value := None |})
  /\ Z.land (Z.shiftr 2 (width (take 1 (data st)))) (Z.shiftl 1 8 - 1) = 1
  /\ ~ decodes_positionally st 2.
Proof.
  intros st. repeat (split; [reflexivity|]).
  intros (slots' & Hrun & _ & Hlook).
  vm_compute in Hrun. injection Hrun as <-.
  destruct (Hlook 1%nat (BitField.init 8) eq_refl) as [_ Hempty].
  specialize (Hempty eq_refl). vm_compute in Hempty. discriminate.
Qed.

(** ** Round trips *)

Lemma positive_fits (fields values : list Z) :
  Forall2 (fun w v => 0 < w /\ 0 <= v < 2 ^ w) fields values ->
  Forall2 fits fields values.
Proof.
  intros H. eapply Forall2_impl; [exact H|].
  intros w v [Hw Hv]. split; [lia | exact Hv].
Qed.

Lemma to_list_data (st : state) :
  BitFieldArray.to_list st = (Return (map BitField.value (data st)), st).
Proof. reflexivity. Qed.

(** C2.  Take positive widths [w1..wn] and values [v1..vn] with
    [0 <= vi < 2 ^ wi].  Build an array with those widths and assign the
    values; export it to [e]; build a second array with the same widths and
    call [from_int(e)] on it.  Each call returns, and [to_list] of the second
    array is [v1..vn]. *)
Theorem export_from_int_round_trip
  (fields values : list Z) (sv : option Z) :
  Forall2 (fun w v => 0 < w /\ 0 <= v < 2 ^ w) fields values ->
  exists (st1 st2 : state) (e : Z),
    BitFieldArray.assign (Iterable values) (fresh fields sv) = (Return Self, st1)
    /\ BitFieldArray.export st1 = (Return e, st1)
    /\ BitFieldArray.from_int e (fresh fields (sentinel_value st1))
       = (Return Self, st2)
    /\ BitFieldArray.to_list st2 = (Return (map Some values), st2).
Proof.
  intros Hpos. apply positive_fits in Hpos as Hfit.
  eexists _, _, _. split; [now apply assign_fresh|].
  split; [apply export_pack; now apply zip_with_slot_ok|].
  split; [now apply from_int_pack_fresh|].
  rewrite to_list_data. simpl. now rewrite map_value_zip_with.
Qed.

Lemma export_from_int_round_trip_witness :
  Forall2 (fun w v => 0 < w /\ 0 <= v < 2 ^ w) [3; 7; 8; 9] [5; 6; 7; 8]
  /\ exists (st1 st2 : state) (e : Z),
       BitFieldArray.assign (Iterable [5; 6; 7; 8]) (fresh [3; 7; 8; 9] None)
       = (Return Self, st1)
       /\ BitFieldArray.export st1 = (Return e, st1)
       /\ BitFieldArray.from_int e (fresh [3; 7; 8; 9] (sentinel_value st1))
          = (Return Self, st2)
       /\ BitFieldArray.to_list st2
          = (Return [Some 5; Some 6; Some 7; Some 8], st2).
Proof.
  assert (H : Forall2 (fun w v => 0 < w /\ 0 <= v < 2 ^ w)
                      [3; 7; 8; 9] [5; 6; 7; 8])
    by (repeat constructor; simpl; lia).
  split; [exact H|].
  exact (export_from_int_round_trip [3; 7; 8; 9] [5; 6; 7; 8] None H).
Defined.

(** C8.  With widths and values as in C2 and [order] either ["little"] or
    ["big"]: assign the values, take [export_as_bytes(order)], and call
    [from_bytes] with those bytes and the same [order] on a second array of
    the same widths.  Each call returns, and [to_list] of the second array is
    the original values. *)
Theorem export_as_bytes_from_bytes_round_trip
  (fields values : list Z) (sv : option Z) (order : string) :
  Forall2 (fun w v => 0 < w /\ 0 <= v < 2 ^ w) fields values ->
  order = "little"%string \/ order = "big"%string ->
  exists (st1 st2 : state) (bs : list byte),
    BitFieldArray.assign (Iterable values) (fresh fields sv) = (Return Self, st1)
    /\ BitFieldArray.export_as_bytes order st1 = (Return bs, st1)
    /\ BitFieldArray.from_bytes bs order (fresh fields (sentinel_value st1))
       = (Return Self, st2)
    /\ BitFieldArray.to_list st2 = (Return (map Some values), st2).
Proof.
  intros Hpos Horder. apply positive_fits in Hpos as Hfit.
  pose (st1 := {| data := zip_with slot fields values; sentinel_value := sv |}).
  assert (Hok : inv st1) by now apply zip_with_slot_ok.
  destruct (export_as_bytes_spec order st1 Hok Horder) as (bs & Hbs & _ & Hback).
  exists st1, st1, bs. split; [now apply assign_fresh|].
  split; [exact Hbs|]. split.
  - unfold BitFieldArray.from_bytes, bind, lift. rewrite Hback.
    now apply from_int_pack_fresh.
  - rewrite to_list_data. simpl. now rewrite map_value_zip_with.
Qed.

Lemma export_as_bytes_from_bytes_round_trip_witness :
  Forall2 (fun w v => 0 < w /\ 0 <= v < 2 ^ w) [3; 7; 8; 9] [5; 6; 7; 8]
  /\ exists (st1 st2 : state) (bs : list byte),
       BitFieldArray.assign (Iterable [5; 6; 7; 8]) (fresh [3; 7; 8; 9] None)
       = (Return Self, st1)
       /\ BitFieldArray.export_as_bytes "big" st1 = (Return bs, st1)
       /\ BitFieldArray.from_bytes bs "big"
            (fresh [3; 7; 8; 9] (sentinel_value st1))
          = (Return Self, st2)
       /\ BitFieldArray.to_list st2
          = (Return [Some 5; Some 6; Some 7; Some 8], st2).
Proof.
  assert (H : Forall2 (fun w v => 0 < w /\ 0 <= v < 2 ^ w)
                      [3; 7; 8; 9] [5; 6; 7; 8])
    by (repeat constructor; simpl; lia).
  split; [exact H|].
  exact (export_as_bytes_from_bytes_round_trip
           [3; 7; 8; 9] [5; 6; 7; 8] None "big" H (or_intror eq_refl)).
Defined.

(** ** Length of the exported bytes *)

(** C5, as stated, fails on an array with no filled slot: its export is 0,
    and [export_as_bytes] returns the empty byte string, not one zero byte,
    in either order. *)
Lemma export_as_bytes_zero_counterexample :
  let st := fresh [3; 4] None in
  BitFieldArray.export st = (Return 0, st)
  /\ ~ (exists bs, BitFieldArray.export_as_bytes "little" st = (Return bs, st)
                   /\ length bs = 1%nat)
  /\ ~ (exists bs, BitFieldArray.export_as_bytes "big" st = (Return bs, st)
                   /\ length bs = 1%nat).
Proof.
  intros st. split; [reflexivity|].
  split; intros (bs & Hrun & Hlen); vm_compute in Hrun;
    injection Hrun as <-; discriminate.
Qed.

(** C5, amended.  For [order] either ["little"] or ["big"], on an array whose
    filled slots fit their widths, [export_as_bytes(order)] returns exactly
    [ceil(bit_length(value) / 8)] bytes, where [value] is what [export]
    returns; when [value] is 0 that is the empty byte string. *)
Theorem export_as_bytes_length (st : state) (order : string) :
  inv st ->
  order = "little"%string \/ order = "big"%string ->
  exists (value : Z) (bs : list byte),
    BitFieldArray.export st = (Return value, st)
    /\ BitFieldArray.export_as_bytes order st = (Return bs, st)
    /\ Z.of_nat (length bs) = (PyInt.bit_length value + 7) / 8
    /\ PyInt.bit_length value <= 8 * Z.of_nat (length bs)
       < PyInt.bit_length value + 8
    /\ (value = 0 -> bs = []).
Proof.
  intros Hok Horder.
  destruct (export_as_bytes_spec order st Hok Horder) as (bs & Hbs & Hlen & _).
  exists (pack (data st)), bs.
  split; [now apply export_pack|]. split; [exact Hbs|].
  split; [exact Hlen|]. split.
  - rewrite Hlen. apply byte_count_ceil.
  - intros Hzero. rewrite Hzero in Hlen. destruct bs; [reflexivity|].
    vm_compute in Hlen. discriminate.
Qed.

Lemma export_as_bytes_length_witness :
  let st := {| data := [slot 3 5; slot 7 6; slot 8 7; slot 9 8];
               sentinel_value := None |} in
  inv st
  /\ exists (value : Z) (bs : list byte),
       BitFieldArray.export st = (Return value, st)
       /\ BitFieldArray.export_as_bytes "little" st = (Return bs, st)
       /\ Z.of_nat (length bs) = (PyInt.bit_length value + 7) / 8.
Proof.
  intros st.
  assert (Hok : inv st) by (repeat constructor; simpl; lia).
  split; [exact Hok|].
  destruct (export_as_bytes_length st "little" Hok (or_introl eq_refl))
    as (value & bs & Hexp & Hbs & Hlen & _).
  exists value, bs. split; [exact Hexp|]. split; [exact Hbs | exact Hlen].
Defined.

(** ** Construction *)

(** C4, as stated, fails: neither the empty list of widths nor a list holding
    a negative width is rejected, and the arrays they produce answer
    [export] and [to_list]. *)
Lemma init_rejects_counterexample :
  let st := {| data := []; sentinel_value := None |} in
  ~ rejected [] st
  /\ ~ rejected [3; -1] st
  /\ BitFieldArray.export (fresh [] None) = (Return 0, fresh [] None)
  /\ BitFieldArray.to_list (fresh [3; -1] None)
     = (Return [None; None], fresh [3; -1] None).
Proof.
  intros st. split; [|split; [|split]]; try reflexivity;
    intros (e & st' & Hrun); discriminate.
Qed.

(** C4, amended.  Construction checks nothing: for every list of integer
    widths, the empty list and negative widths included, it returns an array
    with one empty slot per width, in order.  A negative width is only met
    when a value is to be stored in such a slot.  [BitField.assign] on a slot
    of negative width raises [ValueError].  A scalar [assign] whose first
    empty slot has a negative width raises [ValueError] and changes nothing.
    A bulk [assign] that has a value left when it reaches the first empty
    slot of negative width raises [ValueError] there: that slot and all
    later slots are unchanged, and the slots before it are left as the same
    call leaves them on an array that ends before that slot. *)
Theorem init_accepts_every_width_list (fields : list Z) (st : state) :
  BitFieldArray.init fields st
  = (Return Self,
     {| data := map BitField.init fields;
        sentinel_value := sentinel_value st |})
  /\ map BitField.max_bits (map BitField.init fields) = fields
  /\ Forall empty (map BitField.init fields)
  /\ (forall (b : BitField) (v : Z),
         BitField.max_bits b < 0 -> BitField.assign b v = Raise ValueError)
  /\ (forall (s : state) (v : Z) (pre post : list BitField) (e : BitField),
         data s = pre ++ e :: post ->
         Forall filled pre -> empty e -> BitField.max_bits e < 0 ->
         BitFieldArray.assign (Int v) s = (Raise ValueError, s))
  /\ (forall (s : state) (values : list Z) (pre post : list BitField)
             (e : BitField),
         data s = pre ++ e :: post ->
         Forall (fun b => empty b -> 0 <= BitField.max_bits b) pre ->
         empty e -> BitField.max_bits e < 0 ->
         (length (List.filter BitField.is_null pre) < length values)%nat ->
         BitFieldArray.assign (Iterable values) s
         = (Raise ValueError,
            {| data :=
                 data (snd (BitFieldArray.assign (Iterable values)
                              {| data := pre;
                                 sentinel_value := sentinel_value s |}))
                 ++ e :: post;
               sentinel_value := sentinel_value s |})).
Proof.
  split; [reflexivity|]. split; [|split; [|split; [|split]]].
  - induction fields as [|w fields IH]; simpl; [reflexivity | now rewrite IH].
  - induction fields as [|w fields IH]; simpl; constructor;
      [reflexivity | exact IH].
  - intros b v Hneg. now apply assign_negative.
  - intros s v pre post e Hdata Hpre He Hneg. unfold BitFieldArray.assign.
    assert (Hfind :
      list_find (fun bits => BitField.is_null bits) (data s)
      = Some (length pre, e)).
    { rewrite Hdata. clear Hdata. induction Hpre as [|b pre Hb Hrest IH].
      - simpl app. rewrite list_find_null_cons. now rewrite He.
      - simpl app. rewrite list_find_null_cons. unfold filled in Hb.
        rewrite Hb, IH. reflexivity. }
    now rewrite Hfind, assign_negative.
  - intros s values pre post e Hdata Hpre He Hneg Hleft.
    unfold BitFieldArray.assign. cbn [data sentinel_value].
    rewrite Hdata, assign_loop_negative by assumption.
    apply Nat.ltb_lt in Hleft. rewrite Hleft.
    destruct (BitFieldArray.assign_loop values pre) as [r rest].
    now destruct r.
Qed.

Lemma init_accepts_every_width_list_witness :
  BitFieldArray.init [3; -1; 4] {| data := []; sentinel_value := None |}
  = (Return Self,
     {| data := [BitField.init 3; BitField.init (-1); BitField.init 4];
        sentinel_value := None |})
  /\ BitFieldArray.assign (Int 5)
       {| data := [slot 3 1; BitField.init (-1); BitField.init 4];
          sentinel_value := None |}
     = (Raise ValueError,
        {| data := [slot 3 1; BitField.init (-1); BitField.init 4];
           sentinel_value := None |})
  /\ BitFieldArray.assign (Iterable [1; 2; 3]) (fresh [3; -1; 4] None)
     = (Raise ValueError,
        {| data := [slot 3 1; BitField.init (-1); BitField.init 4];
           sentinel_value := None |}).
Proof.
  destruct (init_accepts_every_width_list
              [3; -1; 4] {| data := []; sentinel_value := None |})
    as (Hinit & _ & _ & _ & Hint & Hbulk).
  split; [exact Hinit|]. split.
  - apply (Hint _ 5 [slot 3 1] [BitField.init 4] (BitField.init (-1)));
      [reflexivity | repeat constructor | reflexivity | simpl; lia].
  - apply (Hbulk (fresh [3; -1; 4] None) [1; 2; 3]
             [BitField.init 3] [BitField.init 4] (BitField.init (-1)));
      [reflexivity | repeat constructor; simpl; lia | reflexivity
       | simpl; lia | simpl; lia].
Defined.

(** * Further properties of the code *)

(** ** Masking *)

(** X1.  For a width that is not negative, [mask] returns the value reduced
    modulo [2 ^ bits]: a result in [0, 2 ^ bits), also for a negative value,
    and one that masking again leaves as it is. *)
Theorem mask_is_modulo (v bits : Z) :
  0 <= bits ->
  exists m,
    BitField.mask v bits = Return m
    /\ m = v mod 2 ^ bits
    /\ 0 <= m < 2 ^ bits
    /\ BitField.mask m bits = Return m.
Proof.
  intros Hb. exists (Z.land v (Z.shiftl 1 bits - 1)).
  split; [now apply mask_nonneg|]. split; [now apply land_mask_mod|].
  split; [now apply land_mask_range|].
  rewrite mask_nonneg by assumption. f_equal. now apply land_mask_idem.
Qed.

Lemma mask_is_modulo_witness :
  exists m,
    BitField.mask (-5) 3 = Return m
    /\ m = (-5) mod 2 ^ 3
    /\ 0 <= m < 2 ^ 3
    /\ BitField.mask m 3 = Return m.
Proof. apply (mask_is_modulo (-5) 3). lia. Defined.

(** ** Scalar assignment *)

Lemma fill_first_filled (v : Z) (slots : list BitField) :
  Forall filled slots -> fill_first v slots = slots.
Proof.
  induction 1 as [|b slots Hb Hrest IH]; simpl; [reflexivity|].
  unfold filled in Hb. now rewrite Hb, IH.
Qed.

Lemma fill_first_widths_ok (v : Z) (slots : list BitField) :
  widths_ok slots -> widths_ok (fill_first v slots).
Proof.
  induction 1 as [|b slots Hb Hrest IH]; simpl; [constructor|].
  destruct (BitField.is_null b); constructor; assumption.
Qed.

(** The slots after a scalar assignment, whether the value went to a slot or
    to the sentinel. *)
Lemma assign_int_data (v : Z) (st : state) :
  widths_ok (data st) ->
  exists sv,
    BitFieldArray.assign (Int v) st
    = (Return Self, {| data := fill_first v (data st); sentinel_value := sv |}).
Proof.
  intros Hw. unfold BitFieldArray.assign.
  assert (Hfind :
    match list_find (fun bits => BitField.is_null bits) (data st) with
    | Some (i, b) =>
        0 <= BitField.max_bits b
        /\ <[i := slot (BitField.max_bits b)
                       (Z.land v (Z.shiftl 1 (BitField.max_bits b) - 1))]>
             (data st)
           = fill_first v (data st)
    | None => fill_first v (data st) = data st
    end).
  { induction Hw as [|b slots Hb Hrest IH]; [reflexivity|].
    rewrite list_find_null_cons. simpl.
    destruct (BitField.is_null b) eqn:Hnull; [now split|].
    destruct (list_find _ slots) as [[i b0]|]; simpl.
    - destruct IH as [Hw0 IH]. split; [assumption|]. now rewrite IH.
    - now rewrite IH. }
  destruct (list_find _ (data st)) as [[i b]|].
  - destruct Hfind as [Hwb Hfill]. rewrite assign_nonneg by assumption.
    eexists. now rewrite Hfill.
  - rewrite sentinel_assign, Hfind. eexists. reflexivity.
Qed.

Lemma assign_int_fills_first_empty_aux
  (st : state) (v : Z) (pre post : list BitField) (e : BitField) :
  data st = pre ++ e :: post ->
  Forall filled pre -> empty e -> 0 <= BitField.max_bits e ->
  BitFieldArray.assign (Int v) st
  = (Return Self,
     {| data := pre ++ slot (BitField.max_bits e)
                       (Z.land v (Z.shiftl 1 (BitField.max_bits e) - 1))
                     :: post;
        sentinel_value := sentinel_value st |}).
Proof.
  intros Hdata Hpre He Hw. unfold BitFieldArray.assign. rewrite Hdata.
  assert (Hfind :
    list_find (fun bits => BitField.is_null bits) (pre ++ e :: post)
    = Some (length pre, e)).
  { clear Hdata. induction Hpre as [|b pre Hb Hrest IH].
    - simpl app. rewrite list_find_null_cons. now rewrite He.
    - simpl app. rewrite list_find_null_cons. unfold filled in Hb.
      rewrite Hb, IH. reflexivity. }
  rewrite Hfind, assign_nonneg by assumption.
  do 2 f_equal. rewrite insert_app_r_alt by lia.
  now rewrite Nat.sub_diag.
Qed.

(** X2.  When the slots before an empty slot are all filled, a scalar
    [assign] puts the masked value into that slot, leaves every other slot
    and the sentinel as they were, and returns the array. *)
Theorem assign_int_fills_first_empty
  (st : state) (v : Z) (pre post : list BitField) (e : BitField) :
  data st = pre ++ e :: post ->
  Forall filled pre -> empty e -> 0 <= BitField.max_bits e ->
  BitFieldArray.assign (Int v) st
  = (Return Self,
     {| data := pre ++ slot (BitField.max_bits e)
                       (Z.land v (Z.shiftl 1 (BitField.max_bits e) - 1))
                     :: post;
        sentinel_value := sentinel_value st |}).
Proof. apply assign_int_fills_first_empty_aux. Qed.

Lemma assign_int_fills_first_empty_witness :
  BitFieldArray.assign (Int 300)
    {| data := [slot 3 5; BitField.init 8; BitField.init 9];
       sentinel_value := None |}
  = (Return Self,
     {| data := [slot 3 5; slot 8 44; BitField.init 9];
        sentinel_value := None |}).
Proof.
  apply (assign_int_fills_first_empty
           {| data := [slot 3 5; BitField.init 8; BitField.init 9];
              sentinel_value := None |}
           300 [slot 3 5] [BitField.init 9] (BitField.init 8));
    [reflexivity | repeat constructor | reflexivity | simpl; lia].
Defined.

(** ** Composing assignments *)

Lemma assign_loop_cons (v : Z) (values : list Z) (slots : list BitField) :
  widths_ok slots ->
  BitFieldArray.assign_loop (v :: values) slots
  = BitFieldArray.assign_loop values (fill_first v slots).
Proof.
  induction 1 as [|b slots Hb Hrest IH].
  - now destruct values.
  - cbn [BitFieldArray.assign_loop fill_first].
    destruct (BitField.is_null b) eqn:Hnull.
    + rewrite assign_nonneg by assumption.
      destruct values as [|v2 values].
      * now rewrite assign_loop_nil_values.
      * cbn [BitFieldArray.assign_loop]. reflexivity.
    + rewrite IH. destruct values as [|v2 values].
      * now rewrite assign_loop_nil_values.
      * cbn [BitFieldArray.assign_loop]. now rewrite Hnull.
Qed.

Lemma assign_loop_widths_ok (values : list Z) (slots : list BitField) :
  widths_ok slots -> widths_ok (snd (BitFieldArray.assign_loop values slots)).
Proof.
  revert slots. induction values as [|v values IH]; intros slots Hw.
  - now rewrite assign_loop_nil_values.
  - rewrite assign_loop_cons by assumption. apply IH.
    now apply fill_first_widths_ok.
Qed.

Lemma assign_loop_app (xs ys : list Z) (slots : list BitField) :
  widths_ok slots ->
  BitFieldArray.assign_loop (xs ++ ys) slots
  = BitFieldArray.assign_loop ys (snd (BitFieldArray.assign_loop xs slots)).
Proof.
  revert slots. induction xs as [|x xs IH]; intros slots Hw.
  - now rewrite assign_loop_nil_values.
  - simpl app. rewrite !assign_loop_cons by assumption.
    apply IH. now apply fill_first_widths_ok.
Qed.

Lemma assign_loop_returns (values : list Z) (slots : list BitField) :
  widths_ok slots -> fst (BitFieldArray.assign_loop values slots) = Return tt.
Proof.
  intros Hw. destruct (assign_loop_spec slots Hw values) as (s' & Hrun & _).
  now rewrite Hrun.
Qed.

(** X3.  On an array whose widths are not negative, assigning the sequence
    [v :: values] in bulk leaves the same slots as assigning [v] alone and
    then [values] in bulk; both ways every call returns the array. *)
Theorem assign_iterable_unfolds_to_scalar
  (st : state) (v : Z) (values : list Z) :
  widths_ok (data st) ->
  let st1 := snd (BitFieldArray.assign (Int v) st) in
  fst (BitFieldArray.assign (Iterable (v :: values)) st) = Return Self
  /\ fst (BitFieldArray.assign (Int v) st) = Return Self
  /\ fst (BitFieldArray.assign (Iterable values) st1) = Return Self
  /\ data (snd (BitFieldArray.assign (Iterable (v :: values)) st))
     = data (snd (BitFieldArray.assign (Iterable values) st1)).
Proof.
  intros Hw st1. subst st1.
  destruct (assign_int_data v st Hw) as [sv Hint]. rewrite Hint.
  unfold BitFieldArray.assign. cbn [snd fst data].
  rewrite assign_loop_cons by assumption.
  pose proof (assign_loop_returns values (fill_first v (data st))
                (fill_first_widths_ok v _ Hw)) as Hret.
  destruct (BitFieldArray.assign_loop values (fill_first v (data st)))
    as [r slots']. simpl in Hret. subst r. repeat split.
Qed.

Lemma assign_iterable_unfolds_to_scalar_witness :
  let st := fresh [3; 7; 8] None in
  data (snd (BitFieldArray.assign (Iterable [5; 6]) st))
  = data (snd (BitFieldArray.assign (Iterable [6])
                 (snd (BitFieldArray.assign (Int 5) st)))).
Proof.
  intros st.
  assert (Hw : widths_ok (data st)) by (repeat constructor; simpl; lia).
  exact (proj2 (proj2 (proj2 (assign_iterable_unfolds_to_scalar st 5 [6] Hw)))).
Defined.

(** X4.  On an array whose widths are not negative, assigning [xs] and then
    [ys] is the same as assigning the concatenation [xs ++ ys] once: same
    result, same slots, same sentinel. *)
Theorem assign_iterable_app (st : state) (xs ys : list Z) :
  widths_ok (data st) ->
  BitFieldArray.assign (Iterable (xs ++ ys)) st
  = BitFieldArray.assign (Iterable ys)
      (snd (BitFieldArray.assign (Iterable xs) st)).
Proof.
  intros Hw. unfold BitFieldArray.assign.
  rewrite assign_loop_app by assumption.
  pose proof (assign_loop_returns xs (data st) Hw) as Hret.
  destruct (BitFieldArray.assign_loop xs (data st)) as [r slots1].
  simpl in Hret. subst r. reflexivity.
Qed.

Lemma assign_iterable_app_witness :
  let st := {| data := [BitField.init 3; slot 7 6; BitField.init 8];
               sentinel_value := None |} in
  BitFieldArray.assign (Iterable ([5] ++ [7; 9])) st
  = BitFieldArray.assign (Iterable [7; 9])
      (snd (BitFieldArray.assign (Iterable [5]) st)).
Proof.
  intros st. apply (assign_iterable_app st [5] [7; 9]).
  repeat constructor; simpl; lia.
Defined.

(** ** Decoding: what [from_int] leaves *)

Lemma state_eta (st : state) :
  {| data := data st; sentinel_value := sentinel_value st |} = st.
Proof. now destruct st. Qed.

Lemma assign_loop_full (values : list Z) (slots : list BitField) :
  Forall filled slots ->
  BitFieldArray.assign_loop values slots = (Return tt, slots).
Proof.
  intros Hfull. revert values.
  induction Hfull as [|b slots Hb Hrest IH]; intros [|v values]; simpl;
    try reflexivity.
  unfold filled in Hb. now rewrite Hb, IH.
Qed.

Lemma from_int_all_filled (value : Z) (st : state) :
  widths_ok (data st) ->
  fst (BitFieldArray.from_int value st) = Return Self
  /\ Forall filled (data (snd (BitFieldArray.from_int value st)))
  /\ widths_ok (data (snd (BitFieldArray.from_int value st))).
Proof.
  intros Hw. rewrite from_int_is_assign by assumption.
  destruct (assign_iterable_spec (candidates (data st) value) st Hw)
    as (slots' & Hrun & Hlen & Hlook).
  rewrite Hrun. cbn [fst snd data]. split; [reflexivity|].
  assert (Hall : forall j b', slots' !! j = Some b' ->
                   filled b' /\ 0 <= BitField.max_bits b').
  { intros j b' Hj'.
    destruct (lookup_lt_is_Some_2 (data st) j) as [b Hj].
    { rewrite <- Hlen. eapply lookup_lt_Some; eassumption. }
    rewrite (Hlook _ _ Hj) in Hj'. injection Hj' as <-.
    assert (Hwb : 0 <= BitField.max_bits b).
    { unfold widths_ok in Hw. rewrite Forall_lookup in Hw. exact (Hw _ _ Hj). }
    unfold paired, filled. destruct (BitField.is_null b) eqn:Hnull;
      [|split; assumption].
    destruct (lookup_lt_is_Some_2 (candidates (data st) value)
                (empties_before j (data st))) as [c Hc].
    { rewrite candidates_length.
      pose proof (empties_before_le j (data st)).
      pose proof (lookup_lt_Some _ _ _ Hj). lia. }
    rewrite Hc. split; [reflexivity | exact Hwb]. }
  split; apply Forall_lookup; intros j b' Hj'; now apply (Hall j b').
Qed.

(** X5.  On an array whose widths are not negative, [from_int] returns the
    array and leaves no slot empty, whatever the value and whichever slots
    were filled before. *)
Theorem from_int_leaves_no_empty_slot (st : state) (value : Z) :
  widths_ok (data st) ->
  fst (BitFieldArray.from_int value st) = Return Self
  /\ Forall filled (data (snd (BitFieldArray.from_int value st)))
  /\ length (data (snd (BitFieldArray.from_int value st))) = length (data st).
Proof.
  intros Hw. destruct (from_int_all_filled value st Hw) as (Hret & Hfull & _).
  split; [exact Hret|]. split; [exact Hfull|].
  rewrite from_int_is_assign by assumption.
  destruct (assign_iterable_spec (candidates (data st) value) st Hw)
    as (slots' & Hrun & Hlen & _).
  now rewrite Hrun.
Qed.

Lemma from_int_leaves_no_empty_slot_witness :
  let st := {| data := [slot 3 5; BitField.init 0; BitField.init 9];
               sentinel_value := None |} in
  Forall filled (data (snd (BitFieldArray.from_int (-1) st))).
Proof.
  intros st.
  apply (from_int_leaves_no_empty_slot st (-1)).
  repeat constructor; simpl; lia.
Defined.

Lemma from_int_full (value : Z) (st : state) :
  widths_ok (data st) -> Forall filled (data st) ->
  BitFieldArray.from_int value st = (Return Self, st).
Proof.
  intros Hw Hfull. rewrite from_int_is_assign by assumption.
  unfold BitFieldArray.assign. rewrite assign_loop_full by assumption.
  now rewrite state_eta.
Qed.

(** X6.  Decoding does not overwrite: on an array without an empty slot
    [from_int] changes nothing, so after one [from_int] a second one, with
    any value, returns the array and leaves the state as the first left it. *)
Theorem from_int_twice (st : state) (value1 value2 : Z) :
  widths_ok (data st) ->
  BitFieldArray.from_int value2 (snd (BitFieldArray.from_int value1 st))
  = (Return Self, snd (BitFieldArray.from_int value1 st)).
Proof.
  intros Hw. destruct (from_int_all_filled value1 st Hw) as (_ & Hfull & Hw').
  now apply from_int_full.
Qed.

Lemma from_int_twice_witness :
  let st := fresh [1; 1; 1] None in
  BitFieldArray.from_int 0 (snd (BitFieldArray.from_int 7 st))
  = (Return Self, snd (BitFieldArray.from_int 7 st)).
Proof.
  intros st. apply (from_int_twice st 7 0).
  repeat constructor; simpl; lia.
Defined.

(** X7.  When some slot has a negative width, [from_int] raises
    [ValueError] before anything is assigned: the array and the sentinel are
    unchanged, also the slots that come before the offending one. *)
Theorem from_int_negative_width (st : state) (value : Z) :
  Exists (fun b => BitField.max_bits b < 0) (data st) ->
  BitFieldArray.from_int value st = (Raise ValueError, st).
Proof.
  intros Hneg. unfold BitFieldArray.from_int, bind, get_data, lift.
  now rewrite from_int_loop_negative.
Qed.

Lemma from_int_negative_width_witness :
  BitFieldArray.from_int 5 (fresh [3; -1] None)
  = (Raise ValueError, fresh [3; -1] None).
Proof.
  apply (from_int_negative_width (fresh [3; -1] None) 5).
  apply Exists_cons_tl, Exists_cons_hd. simpl. lia.
Defined.

(** ** Deletion *)

(** X8.  [delete(index)] with [index < -n] or [index >= n] on an array of [n]
    slots raises [IndexError] and changes nothing; on an array without slots
    every index does. *)
Theorem delete_raises_out_of_range (st : state) (index : Z) :
  index < - Z.of_nat (length (data st))
  \/ Z.of_nat (length (data st)) <= index ->
  BitFieldArray.delete index st = (Raise IndexError, st).
Proof.
  intros Hout. unfold BitFieldArray.delete, bind, get_data, raise, put_data.
  destruct (Z.ltb_spec index 0) as [Hneg|Hpos].
  - destruct (Z.ltb_spec (index + Z.of_nat (length (data st))) 0);
      [reflexivity | lia].
  - destruct (Z.ltb_spec index 0); [lia|].
    destruct (Z.leb_spec (Z.of_nat (length (data st))) index);
      [reflexivity | lia].
Qed.

Lemma delete_raises_out_of_range_witness :
  BitFieldArray.delete 0 (fresh [] None) = (Raise IndexError, fresh [] None)
  /\ BitFieldArray.delete (-3) (fresh [3; 7] None)
     = (Raise IndexError, fresh [3; 7] None).
Proof.
  split.
  - apply (delete_raises_out_of_range (fresh [] None) 0). simpl. lia.
  - apply (delete_raises_out_of_range (fresh [3; 7] None) (-3)). simpl. lia.
Defined.

(** X9.  [delete(i)] with [0 <= i < n] returns, removes the slot at position
    [i], keeps the slots before it in place and moves those after it one
    position to the left; [delete(i - n)] does exactly the same. *)
Theorem delete_in_range_index (st : state) (i : Z) :
  0 <= i < Z.of_nat (length (data st)) ->
  exists slots',
    BitFieldArray.delete i st
    = (Return tt, {| data := slots'; sentinel_value := sentinel_value st |})
    /\ BitFieldArray.delete (i - Z.of_nat (length (data st))) st
       = BitFieldArray.delete i st
    /\ S (length slots') = length (data st)
    /\ (forall j : nat, (j < Z.to_nat i)%nat -> slots' !! j = data st !! j)
    /\ (forall j : nat, (Z.to_nat i <= j)%nat -> slots' !! j = data st !! S j).
Proof.
  intros Hi.
  assert (Hrun : BitFieldArray.delete i st
                 = (Return tt,
                    {| data := take (Z.to_nat i) (data st)
                               ++ drop (S (Z.to_nat i)) (data st);
                       sentinel_value := sentinel_value st |})).
  { apply delete_in_range; [|assumption]. destruct (Z.ltb_spec i 0); lia. }
  eexists. split; [exact Hrun|]. split; [|split; [|split]].
  - rewrite Hrun. apply delete_in_range; [|assumption].
    destruct (Z.ltb_spec (i - Z.of_nat (length (data st))) 0); lia.
  - rewrite length_app, length_take, length_drop. lia.
  - intros j Hj. apply lookup_take_drop_lt; lia.
  - intros j Hj. apply lookup_take_drop_ge; lia.
Qed.

Lemma delete_in_range_index_witness :
  exists slots',
    BitFieldArray.delete 1
      {| data := [slot 3 5; slot 7 6; slot 8 7]; sentinel_value := None |}
    = (Return tt, {| data := slots'; sentinel_value := None |})
    /\ slots' !! 1%nat = Some (slot 8 7).
Proof.
  destruct (delete_in_range_index
              {| data := [slot 3 5; slot 7 6; slot 8 7];
                 sentinel_value := None |} 1)
    as (slots' & Hrun & _ & _ & _ & Hafter); [simpl; lia|].
  exists slots'. split; [exact Hrun|].
  apply (Hafter 1%nat). simpl. lia.
Defined.

(** ** What the methods never touch *)

Lemma assign_max_bits (self self' : BitField) (v : Z) :
  BitField.assign self v = Return self' ->
  BitField.max_bits self' = BitField.max_bits self.
Proof.
  unfold BitField.assign. destruct (BitField.mask _ _); simpl; [|discriminate].
  now intros [= <-].
Qed.

Lemma map_insert_same {A B} (f : A -> B) (l : list A) (i : nat) (x y : A) :
  l !! i = Some x -> f y = f x -> map f (<[i := y]> l) = map f l.
Proof.
  revert i. induction l as [|a l IH]; intros [|i] Hi Hf; simpl in *;
    try discriminate.
  - injection Hi as ->. now rewrite Hf.
  - now rewrite (IH i Hi Hf).
Qed.

Lemma list_find_null_Some (slots : list BitField) (i : nat) (b : BitField) :
  list_find (fun bits => BitField.is_null bits) slots = Some (i, b) ->
  slots !! i = Some b /\ empty b.
Proof.
  intros Hfind. apply list_find_Some in Hfind as (Hi & Hnull & _).
  split; [exact Hi|]. unfold empty. now destruct (BitField.is_null b).
Qed.

Lemma assign_loop_max_bits (values : list Z) (slots : list BitField) :
  map BitField.max_bits (snd (BitFieldArray.assign_loop values slots))
  = map BitField.max_bits slots.
Proof.
  revert values. induction slots as [|b slots IH]; intros [|v values]; simpl;
    try reflexivity.
  destruct (BitField.is_null b).
  - destruct (BitField.assign b v) as [b'|e] eqn:Hassign; [|reflexivity].
    specialize (IH values).
    destruct (BitFieldArray.assign_loop values slots) as [r rest]. simpl in *.
    now rewrite IH, (assign_max_bits _ _ _ Hassign).
  - specialize (IH (v :: values)).
    destruct (BitFieldArray.assign_loop (v :: values) slots) as [r rest].
    simpl in *. now rewrite IH.
Qed.

Lemma assign_keeps_widths (value : arg) (st : state) :
  map BitField.max_bits (data (snd (BitFieldArray.assign value st)))
  = map BitField.max_bits (data st).
Proof.
  destruct value as [v | values |]; simpl; [| |reflexivity].
  - destruct (list_find _ (data st)) as [[i b]|] eqn:Hfind.
    + apply list_find_null_Some in Hfind as [Hi _].
      destruct (BitField.assign b v) as [b'|e] eqn:Hassign; [|reflexivity].
      simpl. eapply map_insert_same; [exact Hi|].
      eapply assign_max_bits; eassumption.
    + now destruct (BitField.assign (_bits_sentinel st) v).
  - pose proof (assign_loop_max_bits values (data st)) as H.
    destruct (BitFieldArray.assign_loop values (data st)) as [r rest].
    now destruct r.
Qed.

Lemma from_int_keeps_widths (value : Z) (st : state) :
  map BitField.max_bits (data (snd (BitFieldArray.from_int value st)))
  = map BitField.max_bits (data st).
Proof.
  unfold BitFieldArray.from_int, bind, get_data, lift.
  destruct (BitFieldArray.from_int_loop (data st) value []) as [cands|e];
    [|reflexivity].
  apply assign_keeps_widths.
Qed.

Lemma exec_keeps_widths (o : op) (st : state) :
  keeps_slots o ->
  map BitField.max_bits (data (exec o st)) = map BitField.max_bits (data st).
Proof.
  intros Hkeep. destruct o; unfold exec.
  - apply assign_keeps_widths.
  - destruct Hkeep.
  - now rewrite export_state.
  - now rewrite export_as_bytes_state.
  - reflexivity.
  - apply from_int_keeps_widths.
  - unfold BitFieldArray.from_bytes, bind, lift.
    destruct (PyInt.from_bytes value order); [|reflexivity].
    apply from_int_keeps_widths.
Qed.

(** X11.  Widths are fixed under the methods that read or fill the array:
    none of [assign], [from_int], [from_bytes], [export], [export_as_bytes]
    and [to_list] changes the number of slots or the width of any slot,
    whether the call returns or raises. *)
Theorem widths_are_immutable (o : op) (st : state) :
  keeps_slots o ->
  map BitField.max_bits (data (exec o st)) = map BitField.max_bits (data st).
Proof. apply exec_keeps_widths. Qed.

Lemma widths_are_immutable_witness :
  map BitField.max_bits
    (data (exec (OpAssign (Iterable [1; 2; 3])) (fresh [3; -1; 4] None)))
  = [3; -1; 4].
Proof.
  exact (widths_are_immutable (OpAssign (Iterable [1; 2; 3]))
           (fresh [3; -1; 4] None) I).
Defined.

Lemma assign_loop_keeps_filled (values : list Z) (slots : list BitField)
  (j : nat) (b : BitField) :
  slots !! j = Some b -> filled b ->
  snd (BitFieldArray.assign_loop values slots) !! j = Some b.
Proof.
  intros Hj Hb. revert values j Hj.
  induction slots as [|b0 slots IH]; intros [|v values] j Hj; simpl;
    try assumption.
  destruct (BitField.is_null b0) eqn:Hnull.
  - destruct (BitField.assign b0 v) as [b'|e]; [|assumption].
    specialize (IH values).
    destruct (BitFieldArray.assign_loop values slots) as [r rest].
    destruct j as [|j]; simpl in *.
    + injection Hj as ->. unfold filled in Hb. congruence.
    + now apply IH.
  - specialize (IH (v :: values)).
    destruct (BitFieldArray.assign_loop (v :: values) slots) as [r rest].
    destruct j as [|j]; simpl in *; [assumption | now apply IH].
Qed.

Lemma assign_keeps_filled (value : arg) (st : state) (j : nat) (b : BitField) :
  data st !! j = Some b -> filled b ->
  data (snd (BitFieldArray.assign value st)) !! j = Some b.
Proof.
  intros Hj Hb. destruct value as [v | values |]; simpl; [| |assumption].
  - destruct (list_find _ (data st)) as [[i b0]|] eqn:Hfind.
    + apply list_find_null_Some in Hfind as [Hi Hnull].
      destruct (BitField.assign b0 v) as [b'|e]; [|assumption]. simpl.
      rewrite list_lookup_insert_ne; [assumption|].
      intros ->. rewrite Hi in Hj. injection Hj as ->.
      unfold filled, empty in *. congruence.
    + now destruct (BitField.assign (_bits_sentinel st) v).
  - pose proof (assign_loop_keeps_filled values (data st) j b Hj Hb) as H.
    destruct (BitFieldArray.assign_loop values (data st)) as [r rest].
    now destruct r.
Qed.

Lemma from_int_keeps_filled (value : Z) (st : state) (j : nat) (b : BitField) :
  data st !! j = Some b -> filled b ->
  data (snd (BitFieldArray.from_int value st)) !! j = Some b.
Proof.
  intros Hj Hb. unfold BitFieldArray.from_int, bind, get_data, lift.
  destruct (BitFieldArray.from_int_loop (data st) value []) as [cands|e];
    [|assumption].
  now apply assign_keeps_filled.
Qed.

Lemma exec_keeps_filled (o : op) (st : state) (j : nat) (b : BitField) :
  keeps_slots o -> data st !! j = Some b -> filled b ->
  data (exec o st) !! j = Some b.
Proof.
  intros Hkeep Hj Hb. destruct o; unfold exec.
  - now apply assign_keeps_filled.
  - destruct Hkeep.
  - now rewrite export_state.
  - now rewrite export_as_bytes_state.
  - assumption.
  - now apply from_int_keeps_filled.
  - unfold BitFieldArray.from_bytes, bind, lift.
    destruct (PyInt.from_bytes value order); [|assumption].
    now apply from_int_keeps_filled.
Qed.

(** X12.  Slots are write-once: a slot that holds a value keeps that value
    and its position through any sequence of calls that contains no
    [delete], whatever is assigned or decoded afterwards. *)
Theorem filled_slots_are_never_overwritten
  (ops : list op) (st : state) (j : nat) (b : BitField) :
  Forall keeps_slots ops ->
  data st !! j = Some b -> filled b ->
  data (exec_all ops st) !! j = Some b.
Proof.
  intros Hops. revert st.
  induction Hops as [|o ops Ho Hrest IH]; intros st Hj Hb; simpl.
  - assumption.
  - apply IH; [|assumption]. now apply exec_keeps_filled.
Qed.

Lemma filled_slots_are_never_overwritten_witness :
  data (exec_all [OpAssign (Int 9); OpFromInt 1000; OpAssign (Iterable [1; 2])]
          {| data := [BitField.init 4; slot 7 6; BitField.init 8];
             sentinel_value := None |})
  !! 1%nat
  = Some (slot 7 6).
Proof.
  apply (filled_slots_are_never_overwritten
           [OpAssign (Int 9); OpFromInt 1000; OpAssign (Iterable [1; 2])]
           {| data := [BitField.init 4; slot 7 6; BitField.init 8];
              sentinel_value := None |} 1%nat (slot 7 6));
    [repeat constructor | reflexivity | reflexivity].
Defined.

(** ** The shared sentinel *)

Lemma assign_data_indep (value : arg) (st1 st2 : state) :
  data st1 = data st2 ->
  data (snd (BitFieldArray.assign value st1))
  = data (snd (BitFieldArray.assign value st2)).
Proof.
  intros Hd. destruct value as [v | values |];
    unfold BitFieldArray.assign; [| |exact Hd].
  - rewrite Hd. destruct (list_find _ (data st2)) as [[i b]|].
    + destruct (BitField.assign b v); [reflexivity | exact Hd].
    + now rewrite !sentinel_assign.
  - rewrite Hd.
    destruct (BitFieldArray.assign_loop values (data st2)) as [r rest].
    now destruct r.
Qed.

Lemma from_int_data_indep (value : Z) (st1 st2 : state) :
  data st1 = data st2 ->
  data (snd (BitFieldArray.from_int value st1))
  = data (snd (BitFieldArray.from_int value st2)).
Proof.
  intros Hd. unfold BitFieldArray.from_int, bind, get_data, lift.
  rewrite Hd.
  destruct (BitFieldArray.from_int_loop (data st2) value []) as [cands|e];
    [|exact Hd].
  now apply assign_data_indep.
Qed.

Lemma exec_data_indep (o : op) (st1 st2 : state) :
  data st1 = data st2 -> data (exec o st1) = data (exec o st2).
Proof.
  intros Hd. destruct o; unfold exec.
  - now apply assign_data_indep.
  - unfold BitFieldArray.delete, bind, get_data, raise, put_data.
    rewrite Hd. now destruct (_ || _).
  - now rewrite !export_state.
  - now rewrite !export_as_bytes_state.
  - assumption.
  - now apply from_int_data_indep.
  - unfold BitFieldArray.from_bytes, bind, lift.
    destruct (PyInt.from_bytes value order); [|assumption].
    now apply from_int_data_indep.
Qed.

(** X13.  The sentinel shared by all arrays does not leak into any of them:
    the same calls on the same slots leave the same slots, and the same
    [export] and [to_list] results, whatever the sentinel held at the
    start. *)
Theorem slots_do_not_depend_on_sentinel
  (ops : list op) (slots : list BitField) (sv1 sv2 : option Z) :
  let st1 := exec_all ops {| data := slots; sentinel_value := sv1 |} in
  let st2 := exec_all ops {| data := slots; sentinel_value := sv2 |} in
  data st1 = data st2
  /\ fst (BitFieldArray.export st1) = fst (BitFieldArray.export st2)
  /\ fst (BitFieldArray.to_list st1) = fst (BitFieldArray.to_list st2).
Proof.
  intros st1 st2.
  assert (Hd : data st1 = data st2).
  { subst st1 st2.
    generalize {| data := slots; sentinel_value := sv1 |},
               {| data := slots; sentinel_value := sv2 |},
               (eq_refl slots
                : data {| data := slots; sentinel_value := sv1 |}
                  = data {| data := slots; sentinel_value := sv2 |}).
    induction ops as [|o ops IH]; intros s1 s2 Hs; simpl; [exact Hs|].
    apply IH. now apply exec_data_indep. }
  split; [exact Hd|].
  unfold BitFieldArray.export, BitFieldArray.to_list, bind, get_data, lift, ret.
  rewrite Hd. split; reflexivity.
Qed.

Lemma exec_sentinel (o : op) (st : state) :
  sentinel_value (exec o st) = sentinel_value st
  \/ sentinel_value (exec o st) = Some 0.
Proof.
  assert (Hassign : forall value s,
    sentinel_value (snd (BitFieldArray.assign value s)) = sentinel_value s
    \/ sentinel_value (snd (BitFieldArray.assign value s)) = Some 0).
  { intros [v | values |] s; unfold BitFieldArray.assign; [| |now left].
    - destruct (list_find _ (data s)) as [[i b]|].
      + destruct (BitField.assign b v); now left.
      + rewrite sentinel_assign. now right.
    - destruct (BitFieldArray.assign_loop values (data s)) as [r rest].
      destruct r; now left. }
  assert (Hfrom : forall value s,
    sentinel_value (snd (BitFieldArray.from_int value s)) = sentinel_value s
    \/ sentinel_value (snd (BitFieldArray.from_int value s)) = Some 0).
  { intros value s. unfold BitFieldArray.from_int, bind, get_data, lift.
    destruct (BitFieldArray.from_int_loop (data s) value []); [|now left].
    apply Hassign. }
  destruct o; unfold exec.
  - apply Hassign.
  - unfold BitFieldArray.delete, bind, get_data, raise, put_data.
    destruct (_ || _); now left.
  - rewrite export_state. now left.
  - rewrite export_as_bytes_state. now left.
  - now left.
  - apply Hfrom.
  - unfold BitFieldArray.from_bytes, bind, lift.
    destruct (PyInt.from_bytes value order); [|now left]. apply Hfrom.
Qed.

(** X14.  The sentinel, empty when the module is loaded, only ever holds 0:
    after any sequence of calls on a new array it is still empty or holds
    0, so values assigned to a full array are discarded. *)
Theorem sentinel_holds_nothing_or_zero (ops : list op) (fields : list Z) :
  sentinel_value (exec_all ops (fresh fields None)) = None
  \/ sentinel_value (exec_all ops (fresh fields None)) = Some 0.
Proof.
  assert (H : forall st,
    sentinel_value st = None \/ sentinel_value st = Some 0 ->
    sentinel_value (exec_all ops st) = None
    \/ sentinel_value (exec_all ops st) = Some 0).
  { induction ops as [|o ops IH]; intros st Hst; simpl; [exact Hst|].
    apply IH. destruct (exec_sentinel o st) as [-> | ->];
      [exact Hst | now right]. }
  apply H. now left.
Qed.

(** ** Size of the exported integer *)

Lemma lor_shiftl_add (v p w : Z) :
  0 <= w -> 0 <= v < 2 ^ w -> Z.lor v (Z.shiftl p w) = v + p * 2 ^ w.
Proof.
  intros Hw Hv.
  pose proof (lor_shiftl_low v p w Hw Hv) as Hlow.
  pose proof (lor_shiftl_high v p w Hw Hv) as Hhigh.
  rewrite land_mask_mod in Hlow by assumption.
  rewrite Z.shiftr_div_pow2 in Hhigh by assumption.
  pose proof (Z.div_mod (Z.lor v (Z.shiftl p w)) (2 ^ w)) as Hdm.
  rewrite Hlow, Hhigh in Hdm. rewrite Hdm at 1; [lia|].
  apply Z.pow_nonzero; lia.
Qed.

Lemma pack_bound (slots : list BitField) :
  Forall slot_ok slots -> widths_ok slots ->
  0 <= pack slots < 2 ^ width slots.
Proof.
  intros Hok Hw. split; [now apply pack_nonneg|].
  induction Hok as [|b slots Hb Hrest IH]; simpl.
  - lia.
  - inversion Hw as [|? ? Hwb Hwrest]; subst.
    pose proof (width_nonneg slots Hwrest) as HW.
    pose proof (pack_nonneg slots Hrest) as HP.
    specialize (IH Hwrest).
    rewrite Z.pow_add_r by assumption.
    assert (0 < 2 ^ BitField.max_bits b) by (apply Z.pow_pos_nonneg; lia).
    assert (0 < 2 ^ width slots) by (apply Z.pow_pos_nonneg; lia).
    destruct (BitField.value b) as [v|] eqn:Hv; [|nia].
    destruct (slot_ok_inv _ _ Hb Hv) as [_ Hrange].
    rewrite lor_shiftl_add by assumption. nia.
Qed.

(** X15.  On an array whose widths are not negative and whose filled slots
    fit their widths, [export] returns a value [e] with
    [0 <= e < 2 ^ (sum of the widths)]; shifting [e] right by all the
    widths leaves 0, as the docstring of [export] says of the consumed
    number. *)
Theorem export_fits_total_width (st : state) :
  inv st -> widths_ok (data st) ->
  exists e,
    BitFieldArray.export st = (Return e, st)
    /\ 0 <= e < 2 ^ width (data st)
    /\ Z.shiftr e (width (data st)) = 0.
Proof.
  intros Hok Hw. exists (pack (data st)).
  pose proof (pack_bound _ Hok Hw) as Hb.
  split; [now apply export_pack|]. split; [exact Hb|].
  rewrite Z.shiftr_div_pow2 by now apply width_nonneg.
  now apply Z.div_small.
Qed.

Lemma export_fits_total_width_witness :
  let st := {| data := [slot 3 5; slot 7 6; slot 8 7; slot 9 8];
               sentinel_value := None |} in
  exists e,
    BitFieldArray.export st = (Return e, st)
    /\ 0 <= e < 2 ^ 27
    /\ Z.shiftr e 27 = 0.
Proof.
  intros st. apply (export_fits_total_width st);
    repeat constructor; simpl; lia.
Defined.

Lemma bit_length_le (e w : Z) :
  0 <= w -> 0 <= e < 2 ^ w -> PyInt.bit_length e <= w.
Proof.
  intros Hw He. unfold PyInt.bit_length.
  destruct (Z.eqb_spec e 0) as [->|Hne]; [assumption|].
  rewrite Z.abs_eq by lia.
  assert (Z.log2 e < w) by (apply Z.log2_lt_pow2; lia). lia.
Qed.

(** X16.  Under the same conditions and for a valid byte order,
    [export_as_bytes] returns at most [ceil(total width / 8)] bytes. *)
Theorem export_as_bytes_length_bound (st : state) (order : string) :
  inv st -> widths_ok (data st) ->
  order = "little"%string \/ order = "big"%string ->
  exists bs,
    BitFieldArray.export_as_bytes order st = (Return bs, st)
    /\ Z.of_nat (length bs) <= (width (data st) + 7) / 8.
Proof.
  intros Hok Hw Horder.
  destruct (export_as_bytes_spec order st Hok Horder) as (bs & Hbs & Hlen & _).
  exists bs. split; [exact Hbs|]. rewrite Hlen. unfold byte_count.
  apply Z.div_le_mono; [lia|].
  pose proof (bit_length_le (pack (data st)) (width (data st))
                (width_nonneg _ Hw) (pack_bound _ Hok Hw)). lia.
Qed.

Lemma export_as_bytes_length_bound_witness :
  let st := {| data := [slot 3 5; slot 7 6; BitField.init 8; slot 9 8];
               sentinel_value := None |} in
  exists bs,
    BitFieldArray.export_as_bytes "big" st = (Return bs, st)
    /\ Z.of_nat (length bs) <= 4.
Proof.
  intros st. apply (export_as_bytes_length_bound st "big");
    [repeat constructor; simpl; lia | repeat constructor; simpl; lia
     | now right].
Defined.

(** ** Reading an export back *)

Lemma candidates_zero (slots : list BitField) :
  candidates slots 0 = repeat 0 (length slots).
Proof.
  induction slots as [|b slots IH]; simpl; [reflexivity|].
  now rewrite Z.land_0_l, Z.shiftr_0_l, IH.
Qed.

Lemma candidates_pack_decoded (slots : list BitField) :
  Forall slot_ok slots -> widths_ok slots ->
  candidates slots (pack slots) = decoded slots.
Proof.
  intros Hok Hw. induction Hok as [|b slots Hb Hrest IH]; [reflexivity|].
  inversion Hw as [|? ? Hwb Hwrest]; subst.
  cbn [pack decoded]. destruct (BitField.value b) as [v|] eqn:Hv.
  - destruct (slot_ok_inv _ _ Hb Hv) as [_ Hrange].
    cbn [candidates].
    rewrite lor_shiftl_low, lor_shiftl_high by assumption.
    now rewrite IH.
  - apply candidates_zero.
Qed.

Lemma candidates_init (slots : list BitField) (value : Z) :
  candidates (map BitField.init (map BitField.max_bits slots)) value
  = candidates slots value.
Proof.
  revert value. induction slots as [|b slots IH]; intros value; simpl;
    [reflexivity | now rewrite IH].
Qed.

Lemma fits_repeat_zero (slots : list BitField) :
  widths_ok slots ->
  Forall2 fits (map BitField.max_bits slots) (repeat 0 (length slots)).
Proof.
  induction 1 as [|b slots Hb Hrest IH]; simpl; constructor; [|exact IH].
  split; [assumption|]. split; [lia|]. apply Z.pow_pos_nonneg; lia.
Qed.

Lemma fits_decoded (slots : list BitField) :
  Forall slot_ok slots -> widths_ok slots ->
  Forall2 fits (map BitField.max_bits slots) (decoded slots).
Proof.
  intros Hok Hw. induction Hok as [|b slots Hb Hrest IH]; [constructor|].
  inversion Hw as [|? ? Hwb Hwrest]; subst.
  cbn [decoded]. destruct (BitField.value b) as [v|] eqn:Hv.
  - destruct (slot_ok_inv _ _ Hb Hv) as [_ Hrange].
    simpl. constructor; [split; assumption | now apply IH].
  - now apply (fits_repeat_zero (b :: slots)).
Qed.

Lemma export_decode_fresh (st : state) (sv : option Z) :
  inv st -> widths_ok (data st) ->
  BitFieldArray.export st = (Return (pack (data st)), st)
  /\ BitFieldArray.from_int (pack (data st))
       (fresh (map BitField.max_bits (data st)) sv)
     = (Return Self,
        {| data := zip_with slot (map BitField.max_bits (data st))
                     (decoded (data st));
           sentinel_value := sv |})
  /\ map BitField.value
       (zip_with slot (map BitField.max_bits (data st)) (decoded (data st)))
     = map Some (decoded (data st)).
Proof.
  intros Hok Hw.
  pose proof (fits_decoded _ Hok Hw) as Hfit.
  split; [now apply export_pack|]. split.
  - rewrite from_int_is_assign.
    + rewrite fresh_data, candidates_init, candidates_pack_decoded
        by assumption.
      now apply assign_fresh.
    + rewrite fresh_data. apply widths_ok_init.
      eapply fits_widths; eassumption.
  - now apply map_value_zip_with.
Qed.

(** X17.  Exporting an array and decoding the result on a new array of the
    same widths gives back the values that come before the first empty slot
    and 0 for that slot and every slot after it: the round trip turns
    "empty" into 0 and forgets the values behind an empty slot. *)
Theorem export_from_int_partial_round_trip (st : state) (sv : option Z) :
  inv st -> widths_ok (data st) ->
  exists (e : Z) (st2 : state),
    BitFieldArray.export st = (Return e, st)
    /\ BitFieldArray.from_int e (fresh (map BitField.max_bits (data st)) sv)
       = (Return Self, st2)
    /\ BitFieldArray.to_list st2
       = (Return (map Some (decoded (data st))), st2).
Proof.
  intros Hok Hw.
  destruct (export_decode_fresh st sv Hok Hw) as (Hexp & Hdec & Hval).
  eexists _, _. split; [exact Hexp|]. split; [exact Hdec|].
  rewrite to_list_data. simpl. now rewrite Hval.
Qed.

Lemma export_from_int_partial_round_trip_witness :
  let st := {| data := [slot 3 5; BitField.init 7; slot 8 7];
               sentinel_value := None |} in
  exists (e : Z) (st2 : state),
    BitFieldArray.export st = (Return e, st)
    /\ BitFieldArray.from_int e (fresh [3; 7; 8] None) = (Return Self, st2)
    /\ BitFieldArray.to_list st2 = (Return [Some 5; Some 0; Some 0], st2).
Proof.
  intros st. apply (export_from_int_partial_round_trip st None);
    repeat constructor; simpl; lia.
Defined.




(** ** Byte order, minimality and padding *)

Lemma to_bytes_digits (n : Z) :
  0 <= n ->
  PyInt.to_bytes n (byte_count n) "little"
  = Return (PyInt.digits_le (Z.to_nat (byte_count n)) n)
  /\ PyInt.to_bytes n (byte_count n) "big"
     = Return (rev (PyInt.digits_le (Z.to_nat (byte_count n)) n)).
Proof.
  intros Hn.
  pose proof (byte_count_nonneg n) as Hc.
  pose proof (byte_count_bound n Hn) as Hb.
  unfold PyInt.to_bytes.
  destruct (Z.ltb_spec (byte_count n) 0); [lia|].
  destruct (Z.ltb_spec n 0); [lia|].
  destruct (Z.leb_spec (256 ^ byte_count n) n); [lia|].
  split; reflexivity.
Qed.

Lemma export_as_bytes_digits (st : state) :
  inv st ->
  let n := pack (data st) in
  BitFieldArray.export_as_bytes "little" st
  = (Return (PyInt.digits_le (Z.to_nat (byte_count n)) n), st)
  /\ BitFieldArray.export_as_bytes "big" st
     = (Return (rev (PyInt.digits_le (Z.to_nat (byte_count n)) n)), st).
Proof.
  intros Hok n.
  destruct (to_bytes_digits n (pack_nonneg _ Hok)) as [Hl Hb].
  unfold BitFieldArray.export_as_bytes, bind, lift.
  rewrite export_pack by assumption.
  fold n. fold (byte_count n). now rewrite Hl, Hb.
Qed.

(** X19.  The two byte orders give the same bytes in opposite order:
    [export_as_bytes('big')] is [export_as_bytes('little')] reversed. *)
Theorem export_as_bytes_big_is_little_reversed (st : state) :
  inv st ->
  exists bs,
    BitFieldArray.export_as_bytes "little" st = (Return bs, st)
    /\ BitFieldArray.export_as_bytes "big" st = (Return (rev bs), st).
Proof.
  intros Hok. destruct (export_as_bytes_digits st Hok) as [Hl Hb].
  eexists. split; [exact Hl | exact Hb].
Qed.

Lemma export_as_bytes_big_is_little_reversed_witness :
  let st := {| data := [slot 3 5; slot 7 6; slot 8 7; slot 9 8];
               sentinel_value := None |} in
  exists bs,
    BitFieldArray.export_as_bytes "little" st = (Return bs, st)
    /\ BitFieldArray.export_as_bytes "big" st = (Return (rev bs), st).
Proof.
  intros st. apply (export_as_bytes_big_is_little_reversed st).
  repeat constructor; simpl; lia.
Defined.

Lemma export_loop_outcome (slots : list BitField) (n pushed : Z) :
  (exists e, BitFieldArray.export_loop slots n pushed = Return e)
  \/ BitFieldArray.export_loop slots n pushed = Raise ValueError.
Proof.
  revert n pushed. induction slots as [|b slots IH]; intros n pushed; simpl.
  - left. now exists n.
  - destruct (BitField.value b) as [v|]; [|left; now exists n].
    unfold PyInt.lshift. destruct (pushed <? 0); simpl; [now right|].
    apply IH.
Qed.

Lemma invalid_order_eqb (order : string) :
  order <> "little"%string -> order <> "big"%string ->
  String.eqb order "little" = false /\ String.eqb order "big" = false.
Proof. intros Hl Hb. split; now apply String.eqb_neq. Qed.

(** X20.  A byte order other than ['little'] and ['big'] is rejected with
    [ValueError] by [export_as_bytes] and by [from_bytes], on every array and
    for every byte string, and nothing is changed: [from_bytes] assigns
    nothing. *)
Theorem invalid_byte_order_raises
  (st : state) (order : string) (value : list byte) :
  order <> "little"%string -> order <> "big"%string ->
  BitFieldArray.export_as_bytes order st = (Raise ValueError, st)
  /\ BitFieldArray.from_bytes value order st = (Raise ValueError, st).
Proof.
  intros Hl Hb. destruct (invalid_order_eqb order Hl Hb) as [El Eb]. split.
  - unfold BitFieldArray.export_as_bytes, BitFieldArray.export, bind,
      get_data, lift.
    destruct (export_loop_outcome (data st) 0 0) as [[e ->] | ->];
      [|reflexivity].
    unfold PyInt.to_bytes. now rewrite El, Eb.
  - unfold BitFieldArray.from_bytes, bind, lift, PyInt.from_bytes.
    now rewrite El, Eb.
Qed.

Lemma invalid_byte_order_raises_witness :
  BitFieldArray.export_as_bytes "native" (fresh [3; 7] None)
  = (Raise ValueError, fresh [3; 7] None)
  /\ BitFieldArray.from_bytes ["005"%byte] "Little" (fresh [3; 7] None)
     = (Raise ValueError, fresh [3; 7] None).
Proof.
  split.
  - apply (invalid_byte_order_raises (fresh [3; 7] None) "native" []);
      discriminate.
  - apply (invalid_byte_order_raises (fresh [3; 7] None) "Little"
             ["005"%byte]); discriminate.
Defined.

Lemma digits_le_last (k : nat) (n : Z) :
  last (PyInt.digits_le (S k) n) = Some (PyInt.byte_of_Z (n / 256 ^ Z.of_nat k)).
Proof.
  revert n. induction k as [|k IH]; intros n.
  - simpl. now rewrite Z.div_1_r.
  - change (PyInt.digits_le (S (S k)) n)
      with (PyInt.byte_of_Z n :: PyInt.digits_le (S k) (n / 256)).
    rewrite last_cons, IH. rewrite Nat2Z.inj_succ, Z.pow_succ_r by lia.
    rewrite Z.div_div by (try apply Z.pow_pos_nonneg; lia). reflexivity.
Qed.

Lemma byte_count_lower (n : Z) : 0 < n -> 256 ^ (byte_count n - 1) <= n.
Proof.
  intros Hn. pose proof (byte_count_ceil n) as [_ Hlt].
  assert (Hbl : PyInt.bit_length n = Z.log2 n + 1).
  { unfold PyInt.bit_length. destruct (Z.eqb_spec n 0); [lia|].
    now rewrite Z.abs_eq by lia. }
  pose proof (Z.log2_nonneg n) as Hlog.
  assert (Hc : 1 <= byte_count n).
  { unfold byte_count. rewrite Hbl.
    apply (Z.div_le_lower_bound _ 8 1); lia. }
  change 256 with (2 ^ 8). rewrite <- Z.pow_mul_r by lia.
  apply Z.le_trans with (2 ^ Z.log2 n).
  - apply Z.pow_le_mono_r; lia.
  - now apply Z.log2_spec.
Qed.

(** X21.  The byte string is minimal: when the export is not 0, the most
    significant byte (the last one in ['little'] order, the first one in
    ['big'] order) is not the zero byte. *)
Theorem export_as_bytes_top_byte_nonzero (st : state) (e : Z) :
  inv st ->
  BitFieldArray.export st = (Return e, st) -> e <> 0 ->
  exists (bs : list byte) (top : byte),
    BitFieldArray.export_as_bytes "little" st = (Return bs, st)
    /\ BitFieldArray.export_as_bytes "big" st = (Return (rev bs), st)
    /\ last bs = Some top
    /\ top <> x00.
Proof.
  intros Hok Hexp Hne.
  rewrite export_pack in Hexp by assumption. injection Hexp as <-.
  pose proof (pack_nonneg _ Hok) as Hn.
  set (n := pack (data st)) in *.
  destruct (export_as_bytes_digits st Hok) as [Hl Hb]. fold n in Hl, Hb.
  pose proof (byte_count_lower n ltac:(lia)) as Hlow.
  pose proof (byte_count_bound n Hn) as Hup.
  assert (Hc : 1 <= byte_count n).
  { destruct (Z.le_gt_cases 1 (byte_count n)) as [|Hlt]; [assumption|].
    pose proof (byte_count_nonneg n).
    assert (byte_count n = 0) as H0 by lia. rewrite H0 in Hup.
    simpl in Hup. lia. }
  destruct (Z.to_nat (byte_count n)) as [|k] eqn:Hk; [lia|].
  assert (Hk' : Z.of_nat k = byte_count n - 1) by lia.
  eexists _, _. split; [exact Hl|]. split; [exact Hb|].
  split; [apply digits_le_last|].
  rewrite Hk'. set (q := n / 256 ^ (byte_count n - 1)).
  assert (Hpos : 0 < 256 ^ (byte_count n - 1))
    by (apply Z.pow_pos_nonneg; lia).
  assert (Hq : 1 <= q < 256).
  { subst q. split.
    - apply Z.div_le_lower_bound; lia.
    - apply Z.div_lt_upper_bound; [assumption|].
      replace (byte_count n) with (Z.succ (byte_count n - 1)) in Hup by lia.
      rewrite Z.pow_succ_r in Hup by lia. lia. }
  intros Hzero.
  pose proof (Z_of_byte_of_Z q) as Hval. rewrite Hzero in Hval.
  rewrite Z.mod_small in Hval by lia.
  change (PyInt.Z_of_byte "000") with 0 in Hval. lia.
Qed.

Lemma export_as_bytes_top_byte_nonzero_witness :
  let st := {| data := [slot 3 5; slot 7 6; slot 8 7; slot 9 8];
               sentinel_value := None |} in
  exists (bs : list byte) (top : byte),
    BitFieldArray.export_as_bytes "little" st = (Return bs, st)
    /\ BitFieldArray.export_as_bytes "big" st = (Return (rev bs), st)
    /\ last bs = Some top
    /\ top <> x00.
Proof.
  intros st.
  apply (export_as_bytes_top_byte_nonzero st 2104373);
    [repeat constructor; simpl; lia | reflexivity | lia].
Defined.

Lemma of_digits_le_zeros (zs : list byte) :
  Forall (fun z => z = x00) zs -> PyInt.of_digits_le zs = 0.
Proof.
  induction 1 as [|z zs Hz Hrest IH]; simpl; [reflexivity|].
  now rewrite Hz, IH.
Qed.

Lemma of_digits_le_app_zeros (bs zs : list byte) :
  Forall (fun z => z = x00) zs ->
  PyInt.of_digits_le (bs ++ zs) = PyInt.of_digits_le bs.
Proof.
  intros Hz. induction bs as [|b bs IH]; simpl.
  - now apply of_digits_le_zeros.
  - now rewrite IH.
Qed.

Lemma Forall_repeat_zero (k : nat) :
  Forall (fun z : byte => z = x00) (repeat x00 k).
Proof. induction k; simpl; constructor; [reflexivity | assumption]. Qed.

(** X22.  Zero padding on the most significant side does not change what
    [from_bytes] decodes: zero bytes appended in ['little'] order, or put in
    front in ['big'] order, give the same result and the same slots. *)
Theorem from_bytes_ignores_zero_padding
  (st : state) (value : list byte) (k : nat) :
  BitFieldArray.from_bytes (value ++ repeat x00 k) "little" st
  = BitFieldArray.from_bytes value "little" st
  /\ BitFieldArray.from_bytes (repeat x00 k ++ value) "big" st
     = BitFieldArray.from_bytes value "big" st.
Proof.
  unfold BitFieldArray.from_bytes, PyInt.from_bytes. simpl. split.
  - now rewrite of_digits_le_app_zeros by apply Forall_repeat_zero.
  - rewrite rev_app_distr.
    rewrite of_digits_le_app_zeros; [reflexivity|].
    apply Forall_rev, Forall_repeat_zero.
Qed.

(** ** Rendering *)

Lemma string_length_append (s1 s2 : string) :
  String.length (String.append s1 s2)
  = (String.length s1 + String.length s2)%nat.
Proof. induction s1 as [|c s1 IH]; simpl; [reflexivity | now rewrite IH]. Qed.

Lemma zeros_length (k : nat) : String.length (PyStr.zeros k) = k.
Proof. induction k as [|k IH]; simpl; [reflexivity | now rewrite IH]. Qed.

Lemma binary_digits_head (p : positive) :
  exists rest, PyStr.binary_digits p = String "1" rest.
Proof.
  induction p as [p [rest IH] | p [rest IH] |]; simpl.
  - rewrite IH. now eexists.
  - rewrite IH. now eexists.
  - now eexists.
Qed.

Lemma binary_digits_length (p : positive) :
  Z.of_nat (String.length (PyStr.binary_digits p)) = PyInt.bit_length (Zpos p).
Proof.
  assert (Hsize : forall q,
    Z.of_nat (String.length (PyStr.binary_digits q)) = Zpos (Pos.size q)).
  { induction q as [q IH | q IH |]; simpl; [| |reflexivity];
      rewrite string_length_append; simpl String.length; lia. }
  rewrite Hsize. unfold PyInt.bit_length. simpl Z.abs.
  destruct p; simpl; lia.
Qed.

Lemma parse_binary_from_append (acc : Z) (s1 s2 : string) :
  parse_binary_from acc (String.append s1 s2)
  = match parse_binary_from acc s1 with
    | Some a => parse_binary_from a s2
    | None => None
    end.
Proof.
  revert acc. induction s1 as [|c s1 IH]; intros acc; simpl; [reflexivity|].
  destruct (Ascii.eqb c "0"); [apply IH|].
  destruct (Ascii.eqb c "1"); [apply IH | reflexivity].
Qed.

Lemma parse_binary_from_zeros (k : nat) :
  parse_binary_from 0 (PyStr.zeros k) = Some 0.
Proof. induction k as [|k IH]; simpl; [reflexivity | exact IH]. Qed.

Lemma parse_binary_digits (p : positive) :
  parse_binary_from 0 (PyStr.binary_digits p) = Some (Zpos p).
Proof.
  induction p as [p IH | p IH |]; simpl; [| |reflexivity];
    rewrite parse_binary_from_append, IH; reflexivity.
Qed.

(** [zfill] up to the next multiple of 8 on a string that does not start
    with a sign. *)
Lemma zfill_to_multiple_of_8 (c : ascii) (rest : string) :
  Ascii.eqb c "+" = false -> Ascii.eqb c "-" = false ->
  let s := String c rest in
  let len := Z.of_nat (String.length s) in
  PyStr.zfill s (len + (- len) mod 8)
  = String.append (PyStr.zeros (Z.to_nat ((- len) mod 8))) s.
Proof.
  intros Hplus Hminus s len. unfold PyStr.zfill. fold len.
  pose proof (Z.mod_pos_bound (- len) 8 ltac:(lia)) as Hm.
  destruct (Z.leb_spec (len + (- len) mod 8) len) as [Hle|Hgt].
  - replace ((- len) mod 8) with 0 by lia. reflexivity.
  - subst s. cbv iota. rewrite Hplus, Hminus. simpl orb. cbv iota.
    do 2 f_equal. lia.
Qed.

Lemma padded_length (len : Z) :
  0 < len ->
  len + (- len) mod 8 = 8 * ((len + 7) / 8).
Proof. intros Hlen. Z.div_mod_to_equations. lia. Qed.

(** The digits that [repr_as_binary] pads: ["0"] for 0, the binary digits
    otherwise. *)
Lemma repr_as_binary_nonneg (v : Z) :
  0 <= v ->
  exists pad : nat,
    BitField.repr_as_binary v
    = String.append (PyStr.zeros pad) (PyStr.slice_from 2 (PyStr.bin v))
    /\ (pad < 8)%nat
    /\ Z.of_nat (String.length (BitField.repr_as_binary v))
       = 8 * Z.max 1 (byte_count v)
    /\ parse_binary (BitField.repr_as_binary v) = Some v.
Proof.
  intros Hv. destruct v as [|p|p]; [| |lia].
  - exists 7%nat. repeat split; reflexivity || lia.
  - unfold BitField.repr_as_binary.
    change (PyStr.slice_from 2 (PyStr.bin (Z.pos p)))
      with (PyStr.binary_digits p).
    destruct (binary_digits_head p) as [rest Hhead].
    pose proof (binary_digits_length p) as Hlen.
    set (len := Z.of_nat (String.length (PyStr.binary_digits p))) in *.
    assert (Hfill :
      PyStr.zfill (PyStr.binary_digits p) (len + (- len) mod 8)
      = String.append (PyStr.zeros (Z.to_nat ((- len) mod 8)))
                      (PyStr.binary_digits p)).
    { subst len. rewrite Hhead. now apply zfill_to_multiple_of_8. }
    rewrite Hfill.
    pose proof (Z.mod_pos_bound (- len) 8 ltac:(lia)) as Hm.
    assert (Hpos : 0 < len).
    { subst len. rewrite Hhead. simpl String.length. lia. }
    exists (Z.to_nat ((- len) mod 8)). split; [reflexivity|].
    split; [lia|]. split.
    + rewrite string_length_append, zeros_length, Nat2Z.inj_add.
      fold len. rewrite Z2Nat.id by lia.
      rewrite Z.add_comm, padded_length by assumption.
      unfold byte_count. rewrite <- Hlen.
      assert (1 <= (len + 7) / 8) by (apply Z.div_le_lower_bound; lia).
      lia.
    + unfold parse_binary.
      now rewrite parse_binary_from_append, parse_binary_from_zeros,
        parse_binary_digits.
Qed.

(** X23.  For a value that is not negative, [repr_as_binary] returns the
    binary digits of the value with fewer than 8 zeros in front, in all a
    multiple of 8 characters: 8 for each byte of the value, 8 for the value
    0.  Read as a binary numeral the result is the value again. *)
Theorem repr_as_binary_pads_to_bytes (v : Z) :
  0 <= v ->
  exists pad : nat,
    BitField.repr_as_binary v
    = String.append (PyStr.zeros pad) (PyStr.slice_from 2 (PyStr.bin v))
    /\ (pad < 8)%nat
    /\ Z.of_nat (String.length (BitField.repr_as_binary v))
       = 8 * Z.max 1 (byte_count v)
    /\ parse_binary (BitField.repr_as_binary v) = Some v.
Proof. apply repr_as_binary_nonneg. Qed.

Lemma repr_as_binary_pads_to_bytes_witness :
  exists pad : nat,
    BitField.repr_as_binary 300
    = String.append (PyStr.zeros pad) "100101100"
    /\ (pad < 8)%nat
    /\ Z.of_nat (String.length (BitField.repr_as_binary 300)) = 16
    /\ parse_binary (BitField.repr_as_binary 300) = Some 300.
Proof. apply (repr_as_binary_pads_to_bytes 300). lia. Defined.

(** X24.  For a negative value [repr_as_binary] does not return a binary
    numeral: [bin] puts ['-0b'] in front, the slice removes only two
    characters, and the result is zeros, then the letter [b], then the
    digits of the absolute value; the sign is lost. *)
Theorem repr_as_binary_negative (p : positive) :
  exists pad : nat,
    BitField.repr_as_binary (Zneg p)
    = String.append (PyStr.zeros pad)
        (String "b" (PyStr.binary_digits p))
    /\ parse_binary (BitField.repr_as_binary (Zneg p)) = None.
Proof.
  unfold BitField.repr_as_binary.
  change (PyStr.slice_from 2 (PyStr.bin (Z.neg p)))
    with (String "b" (PyStr.binary_digits p)).
  rewrite zfill_to_multiple_of_8 by reflexivity.
  eexists. split; [reflexivity|].
  unfold parse_binary.
  now rewrite parse_binary_from_append, parse_binary_from_zeros.
Qed.

(** X25.  For every slot whose value, if any, fits its width, [__repr__] is
    a valid binary numeral of a multiple of 8 digits, then [': '], then the
    width in decimal; the numeral reads as the slot's value, and as 0 for an
    empty slot, which therefore prints like a slot holding 0. *)
Theorem repr_shows_value_or_zero (b : BitField) :
  slot_ok b ->
  exists bits : string,
    BitField.repr b
    = String.append bits (String.append ": " (PyStr.str (BitField.max_bits b)))
    /\ Z.of_nat (String.length bits) mod 8 = 0
    /\ parse_binary bits
       = Some (match BitField.value b with Some v => v | None => 0 end)
    /\ BitField.repr b
       = BitField.repr
           (slot (BitField.max_bits b)
                 (match BitField.value b with Some v => v | None => 0 end)).
Proof.
  intros Hok. unfold BitField.repr, slot_ok, BitField.value in *. simpl.
  set (shown := match BitField._value b with Some v => v | None => 0 end).
  assert (Hshown :
    match BitField._value b with
    | Some v => if v =? 0 then 0 else v
    | None => 0
    end = shown /\ 0 <= shown).
  { subst shown. destruct (BitField._value b) as [v|]; [|split; lia].
    destruct (Z.eqb_spec v 0); split; lia. }
  destruct Hshown as [-> Hnonneg].
  destruct (repr_as_binary_nonneg shown Hnonneg) as (pad & _ & _ & Hlen & Hparse).
  exists (BitField.repr_as_binary shown). split; [reflexivity|].
  split; [rewrite Hlen, Z.mul_comm; apply Z.mod_mul; lia|].
  split; [exact Hparse|].
  destruct (Z.eqb_spec shown 0) as [->|]; reflexivity.
Qed.

Lemma repr_shows_value_or_zero_witness :
  BitField.repr (BitField.init 7) = BitField.repr (slot 7 0)
  /\ BitField.repr (slot 9 300) = "0000000100101100: 9"%string.
Proof.
  split.
  - destruct (repr_shows_value_or_zero (BitField.init 7) I)
      as (bits & _ & _ & _ & Hsame).
    exact Hsame.
  - destruct (repr_shows_value_or_zero (slot 9 300)) as (bits & Hrepr & _).
    + unfold slot_ok. simpl. lia.
    + reflexivity.
Defined.

(** ** Filled slots form a prefix *)

Lemma assign_filled (self self' : BitField) (v : Z) :
  BitField.assign self v = Return self' -> filled self'.
Proof.
  unfold BitField.assign. destruct (BitField.mask _ _); simpl; [|discriminate].
  now intros [= <-].
Qed.

Lemma contiguous_empty (slots : list BitField) :
  Forall empty slots -> contiguous slots.
Proof.
  intros Hall. destruct Hall as [|b slots Hb Hrest]; simpl; [exact I|].
  unfold empty in Hb. now rewrite Hb.
Qed.

Lemma contiguous_cons_filled (b : BitField) (slots : list BitField) :
  filled b -> contiguous slots -> contiguous (b :: slots).
Proof. intros Hb Hc. simpl. unfold filled in Hb. now rewrite Hb. Qed.

Lemma assign_loop_contiguous (values : list Z) (slots : list BitField) :
  contiguous slots ->
  contiguous (snd (BitFieldArray.assign_loop values slots)).
Proof.
  revert values. induction slots as [|b slots IH]; intros [|v values] Hc;
    try exact Hc.
  cbn [BitFieldArray.assign_loop]. simpl in Hc.
  destruct (BitField.is_null b) eqn:Hnull.
  - destruct (BitField.assign b v) as [b'|e] eqn:Hassign.
    + specialize (IH values (contiguous_empty _ Hc)).
      destruct (BitFieldArray.assign_loop values slots) as [r rest].
      apply contiguous_cons_filled; [|exact IH].
      eapply assign_filled; eassumption.
    + simpl. now rewrite Hnull.
  - specialize (IH (v :: values) Hc).
    destruct (BitFieldArray.assign_loop (v :: values) slots) as [r rest].
    now apply contiguous_cons_filled.
Qed.

Lemma insert_first_empty_contiguous
  (slots : list BitField) (i : nat) (b0 b' : BitField) :
  contiguous slots ->
  list_find (fun bits => BitField.is_null bits) slots = Some (i, b0) ->
  filled b' ->
  contiguous (<[i := b']> slots).
Proof.
  intros Hc Hfind Hb'. revert i Hfind.
  induction slots as [|b slots IH]; intros i Hfind; [discriminate|].
  rewrite list_find_null_cons in Hfind. simpl in Hc.
  destruct (BitField.is_null b) eqn:Hnull.
  - injection Hfind as <- <-. simpl.
    apply contiguous_cons_filled; [assumption | now apply contiguous_empty].
  - destruct (list_find _ slots) as [[i' b1]|]; [|discriminate].
    simpl in Hfind. injection Hfind as <- <-. simpl.
    rewrite Hnull. now apply (IH Hc i').
Qed.

Lemma delete_contiguous (slots : list BitField) (i : nat) :
  contiguous slots -> contiguous (base.delete i slots).
Proof.
  revert i. induction slots as [|b slots IH]; intros [|i] Hc; simpl in *;
    try exact I.
  - destruct (BitField.is_null b); [now apply contiguous_empty | exact Hc].
  - destruct (BitField.is_null b); [now apply Forall_delete | now apply IH].
Qed.

Lemma assign_contiguous (value : arg) (st : state) :
  contiguous (data st) ->
  contiguous (data (snd (BitFieldArray.assign value st))).
Proof.
  intros Hc. destruct value as [v | values |];
    unfold BitFieldArray.assign; [| |exact Hc].
  - destruct (list_find _ (data st)) as [[i b0]|] eqn:Hfind.
    + destruct (BitField.assign b0 v) as [b'|e] eqn:Hassign; [|exact Hc].
      simpl. eapply insert_first_empty_contiguous; try eassumption.
      eapply assign_filled; eassumption.
    + now destruct (BitField.assign (_bits_sentinel st) v).
  - pose proof (assign_loop_contiguous values (data st) Hc) as H.
    destruct (BitFieldArray.assign_loop values (data st)) as [r rest].
    now destruct r.
Qed.

Lemma from_int_contiguous (value : Z) (st : state) :
  contiguous (data st) ->
  contiguous (data (snd (BitFieldArray.from_int value st))).
Proof.
  intros Hc. unfold BitFieldArray.from_int, bind, get_data, lift.
  destruct (BitFieldArray.from_int_loop (data st) value []); [|exact Hc].
  now apply assign_contiguous.
Qed.

Lemma exec_contiguous (o : op) (st : state) :
  contiguous (data st) -> contiguous (data (exec o st)).
Proof.
  intros Hc. destruct o; unfold exec.
  - now apply assign_contiguous.
  - unfold BitFieldArray.delete, bind, get_data, raise, put_data.
    destruct (_ || _); [exact Hc|]. simpl. now apply delete_contiguous.
  - now rewrite export_state.
  - now rewrite export_as_bytes_state.
  - exact Hc.
  - now apply from_int_contiguous.
  - unfold BitFieldArray.from_bytes, bind, lift.
    destruct (PyInt.from_bytes value order); [|exact Hc].
    now apply from_int_contiguous.
Qed.

Lemma reachable_contiguous (ops : list op) (fields : list Z) (sv : option Z) :
  contiguous (data (exec_all ops (fresh fields sv))).
Proof.
  assert (H : forall st, contiguous (data st) ->
                         contiguous (data (exec_all ops st))).
  { induction ops as [|o ops IH]; intros st Hc; simpl; [exact Hc|].
    apply IH. now apply exec_contiguous. }
  apply H. rewrite fresh_data. apply contiguous_empty.
  induction fields; simpl; constructor; [reflexivity | assumption].
Qed.

Lemma contiguous_lookup
  (slots : list BitField) (i j : nat) (bi bj : BitField) :
  contiguous slots -> (i <= j)%nat ->
  slots !! i = Some bi -> empty bi -> slots !! j = Some bj -> empty bj.
Proof.
  revert i j. induction slots as [|b slots IH]; intros i j Hc Hij Hi Hbi Hj;
    [discriminate|].
  simpl in Hc. destruct (BitField.is_null b) eqn:Hnull.
  - destruct j as [|j]; simpl in Hj.
    + now injection Hj as <-.
    + rewrite Forall_lookup in Hc. exact (Hc _ _ Hj).
  - destruct i as [|i]; simpl in Hi.
    + injection Hi as ->. unfold empty in Hbi. congruence.
    + destruct j as [|j]; [lia|]. simpl in Hj.
      apply (IH i j); (assumption || lia).
Qed.

(** X26.  Take an array that is constructed and then used only through the
    methods written in [BitFieldArray] ([assign], [delete], [export],
    [export_as_bytes], [to_list], [from_int], [from_bytes]), never by
    assigning to a slot directly, [a[i].assign(v)], nor through the list
    methods inherited from [UserList].  In such an array no filled slot
    comes after an empty one: once a slot is empty, every later slot is
    empty too. *)
Theorem filled_slots_form_a_prefix
  (ops : list op) (fields : list Z) (sv : option Z)
  (i j : nat) (bi bj : BitField) :
  let st := exec_all ops (fresh fields sv) in
  (i <= j)%nat ->
  data st !! i = Some bi -> empty bi ->
  data st !! j = Some bj -> empty bj.
Proof.
  intros st. apply contiguous_lookup. apply reachable_contiguous.
Qed.

Lemma filled_slots_form_a_prefix_witness :
  let st := exec_all [OpAssign (Iterable [1; 2]); OpDelete 0; OpAssign (Int 3);
                      OpDelete 1]
              (fresh [3; 7; 8; 9; 9] None) in
  data st !! 1%nat = Some (BitField.init 9)
  /\ data st !! 2%nat = Some (BitField.init 9)
  /\ empty (BitField.init 9).
Proof.
  intros st. split; [reflexivity|]. split; [reflexivity|].
  apply (filled_slots_form_a_prefix
           [OpAssign (Iterable [1; 2]); OpDelete 0; OpAssign (Int 3);
            OpDelete 1]
           [3; 7; 8; 9; 9] None 1%nat 2%nat (BitField.init 9) (BitField.init 9));
    [lia | reflexivity | reflexivity | reflexivity].
Defined.

(** ** The round trip on arrays built through the methods *)

Lemma widths_ok_map (slots : list BitField) :
  widths_ok slots <-> Forall (fun w => 0 <= w) (map BitField.max_bits slots).
Proof.
  unfold widths_ok. induction slots as [|b slots IH]; simpl.
  - split; constructor.
  - split; intros H; inversion H; subst; constructor;
      (assumption || now apply IH).
Qed.

Lemma exec_widths_ok (o : op) (st : state) :
  widths_ok (data st) -> widths_ok (data (exec o st)).
Proof.
  intros Hw. destruct o;
    try (apply widths_ok_map; rewrite exec_keeps_widths by exact I;
         now apply widths_ok_map).
  unfold exec, BitFieldArray.delete, bind, get_data, raise, put_data.
  destruct (_ || _); [exact Hw|]. simpl. now apply Forall_delete.
Qed.

Lemma reachable_widths_ok (ops : list op) (fields : list Z) (sv : option Z) :
  Forall (fun w => 0 <= w) fields ->
  widths_ok (data (exec_all ops (fresh fields sv))).
Proof.
  intros Hf.
  assert (H : forall st, widths_ok (data st) ->
                         widths_ok (data (exec_all ops st))).
  { induction ops as [|o ops IH]; intros st Hw; simpl; [exact Hw|].
    apply IH. now apply exec_widths_ok. }
  apply H. rewrite fresh_data. now apply widths_ok_init.
Qed.

Lemma decoded_empty (slots : list BitField) :
  Forall empty slots -> map value_or_zero slots = repeat 0 (length slots).
Proof.
  induction 1 as [|b slots Hb Hrest IH]; simpl; [reflexivity|].
  rewrite IH. unfold value_or_zero. unfold empty, BitField.is_null in Hb.
  now destruct (BitField.value b).
Qed.

Lemma decoded_contiguous (slots : list BitField) :
  contiguous slots -> decoded slots = map value_or_zero slots.
Proof.
  induction slots as [|b slots IH]; intros Hc; [reflexivity|].
  cbn [decoded map]. simpl in Hc. unfold value_or_zero at 1.
  unfold BitField.is_null in Hc.
  destruct (BitField.value b) as [v|].
  - now rewrite IH.
  - simpl. now rewrite decoded_empty.
Qed.

(** X27.  Take an array constructed with widths that are not negative and
    then used only through the methods written in [BitFieldArray], as in
    X26.  Exporting it and decoding the export on a new array of the same
    widths reproduces every value it holds, with 0 in place of each empty
    slot. *)
Theorem export_from_int_round_trip_reachable
  (ops : list op) (fields : list Z) (sv sv' : option Z) :
  Forall (fun w => 0 <= w) fields ->
  let st := exec_all ops (fresh fields sv) in
  exists (e : Z) (st2 : state),
    BitFieldArray.export st = (Return e, st)
    /\ BitFieldArray.from_int e (fresh (map BitField.max_bits (data st)) sv')
       = (Return Self, st2)
    /\ BitFieldArray.to_list st2
       = (Return (map (fun b => Some (value_or_zero b)) (data st)), st2).
Proof.
  intros Hf st.
  assert (Hok : inv st) by (apply exec_all_inv, fresh_inv).
  assert (Hw : widths_ok (data st)) by now apply reachable_widths_ok.
  assert (Hc : contiguous (data st)) by apply reachable_contiguous.
  destruct (export_decode_fresh st sv' Hok Hw) as (Hexp & Hdec & Hval).
  eexists _, _. split; [exact Hexp|]. split; [exact Hdec|].
  rewrite to_list_data. simpl. rewrite Hval, decoded_contiguous by assumption.
  now rewrite map_map.
Qed.

Lemma export_from_int_round_trip_reachable_witness :
  let st := exec_all [OpAssign (Iterable [5; 300]); OpDelete 0]
              (fresh [3; 7; 8] None) in
  exists (e : Z) (st2 : state),
    BitFieldArray.export st = (Return e, st)
    /\ BitFieldArray.from_int e (fresh [7; 8] None) = (Return Self, st2)
    /\ BitFieldArray.to_list st2 = (Return [Some 44; Some 0], st2).
Proof.
  intros st.
  apply (export_from_int_round_trip_reachable
           [OpAssign (Iterable [5; 300]); OpDelete 0] [3; 7; 8] None None).
  repeat constructor; lia.
Defined.

(** ** Export grows with each assignment *)

Lemma pack_empty_head (slots : list BitField) :
  Forall empty slots -> pack slots = 0.
Proof.
  intros Hall. destruct Hall as [|b slots Hb _]; simpl; [reflexivity|].
  unfold empty, BitField.is_null in Hb. now destruct (BitField.value b).
Qed.

Lemma pack_app (pre rest : list BitField) :
  Forall filled pre -> widths_ok pre ->
  pack (pre ++ rest)
  = Z.lor (pack pre) (Z.shiftl (pack rest) (width pre)).
Proof.
  intros Hpre Hw. induction Hpre as [|b pre Hb Hfilled IH]; simpl.
  - now rewrite Z.shiftl_0_r.
  - inversion Hw as [|? ? Hwb Hwrest]; subst.
    unfold filled, BitField.is_null in Hb.
    destruct (BitField.value b) as [v|]; [|discriminate].
    rewrite (IH Hwrest), Z.shiftl_lor, Z.shiftl_shiftl
      by now apply width_nonneg.
    rewrite (Z.add_comm (width pre)). apply Z.lor_assoc.
Qed.

(** X28.  On an array whose filled slots [pre] are followed only by empty
    slots, a scalar [assign] adds the masked value above everything already
    exported: the new export is the old one or-ed with the masked value
    shifted left by the total width of [pre]. *)
Theorem export_after_assign_int
  (st : state) (v : Z) (pre post : list BitField) (e : BitField) :
  data st = pre ++ e :: post ->
  Forall filled pre -> Forall slot_ok pre ->
  empty e -> 0 <= BitField.max_bits e -> Forall empty post ->
  exists (old new : Z) (st' : state),
    BitFieldArray.export st = (Return old, st)
    /\ BitFieldArray.assign (Int v) st = (Return Self, st')
    /\ BitFieldArray.export st' = (Return new, st')
    /\ new = Z.lor old
               (Z.shiftl (Z.land v (Z.shiftl 1 (BitField.max_bits e) - 1))
                         (width pre)).
Proof.
  intros Hdata Hfilled Hok He Hwe Hpost.
  assert (Hwpre : widths_ok pre).
  { apply Forall_forall. intros b Hb.
    rewrite Forall_forall in Hfilled, Hok.
    apply slot_ok_width_filled; auto. }
  assert (Hempty_ok : forall l, Forall empty l -> Forall slot_ok l).
  { intros l Hl. eapply Forall_impl; [exact Hl|].
    intros b Hb. unfold empty, BitField.is_null, slot_ok in *.
    now destruct (BitField.value b). }
  assert (Hinv : inv st).
  { unfold inv. rewrite Hdata. apply Forall_app. split; [assumption|].
    apply Hempty_ok. now constructor. }
  set (m := Z.land v (Z.shiftl 1 (BitField.max_bits e) - 1)).
  assert (Hinv' : Forall slot_ok (pre ++ slot (BitField.max_bits e) m :: post)).
  { apply Forall_app. split; [assumption|]. constructor.
    - unfold slot_ok, slot. simpl. now apply land_mask_range.
    - now apply Hempty_ok. }
  eexists _, _, _. split; [now apply export_pack|].
  split; [now apply (assign_int_fills_first_empty_aux st v pre post e)|].
  split; [now apply export_pack|].
  cbn [data]. rewrite Hdata, !pack_app by assumption. f_equal.
  - rewrite (pack_empty_head (e :: post)) by now constructor.
    now rewrite Z.shiftl_0_l, Z.lor_0_r.
  - f_equal. simpl. fold m.
    now rewrite (pack_empty_head post), Z.shiftl_0_l, Z.lor_0_r.
Qed.

Lemma export_after_assign_int_witness :
  let st := {| data := [slot 3 5; slot 7 6; BitField.init 8; BitField.init 9];
               sentinel_value := None |} in
  exists (old new : Z) (st' : state),
    BitFieldArray.export st = (Return old, st)
    /\ BitFieldArray.assign (Int 7) st = (Return Self, st')
    /\ BitFieldArray.export st' = (Return new, st')
    /\ new = Z.lor old (Z.shiftl 7 10).
Proof.
  intros st.
  apply (export_after_assign_int st 7 [slot 3 5; slot 7 6] [BitField.init 9]
           (BitField.init 8));
    [reflexivity | repeat constructor | repeat constructor; simpl; lia
     | reflexivity | simpl; lia | repeat constructor].
Defined.
